(** * boxutils: grid assignment of regions of interest

    A shallow embedding of [trainer_yolo/boxutils.py].

    Modelling decisions.
    - Tensor entries are [float32] in the source.  They are modelled by exact
      rationals [Q]: every statement below is about the arithmetic the code
      writes down, not about rounding.  Equality of computed numbers is
      [Qeq] ([==]); numbers that are only copied are compared with [=].
    - A tensor of shape [[a, b, c]] is a nested list; the last axis of size
      3 or 4 is a record ([croi], [box], [corners]).
    - [tf.greater], [tf.less], [tf.greater_equal], [tf.equal] are the boolean
      comparisons [Qgtb], [Qltb], [Qgeb], [Qeq_bool].
    - [tf.argmax] and [tf.argmin] return the lowest index among ties.
    - Every operation in the body of the selection loop acts on each grid
      cell independently, so the loop is written once per cell
      ([cell_rounds]) and mapped over the grid.
    - [rois_n] is the number of candidate ROIs, as the reshapes in the
      source require; the comparator, a string in the source, is an
      enumeration; the failing [assert] is the value [AssertionError].
    - Division by zero yields 0 in [Q] and inf/nan in the source.  No
      statement below depends on it: wherever a quotient matters the
      divisor (grid_n, the tile width) is assumed positive. *)

From Stdlib Require Import QArith Qabs Qminmax ZArith List Bool Lia Lqa Sorted.
Import ListNotations.

Local Open Scope Q_scope.

(** ** Comparisons and element-wise helpers *)

Definition Qgtb (a b : Q) : bool := negb (Qle_bool a b).
Definition Qltb (a b : Q) : bool := negb (Qle_bool b a).
Definition Qgeb (a b : Q) : bool := Qle_bool b a.

(** [tf.cast(b, tf.float32)] *)
Definition cast (b : bool) : Q := if b then 1 else 0.

(** element-wise binary operation on two tensors of the same length *)
Fixpoint map2 {A B C : Type} (f : A -> B -> C) (l : list A) (m : list B) : list C :=
  match l, m with
  | a :: l', b :: m' => f a b :: map2 f l' m'
  | _, _ => []
  end.

Definition Qnat (n : nat) : Q := inject_Z (Z.of_nat n).

(** ** Data model *)

(** [x1, y1, x2, y2] *)
Record box : Type := mkBox { bx1 : Q; by1 : Q; bx2 : Q; by2 : Q }.

(** centre-form ROI [cx, cy, w] (also used for the normalised form) *)
Record croi : Type := mkRoi { rx : Q; ry : Q; rw : Q }.

(** [y1, x1, y2, x2] as produced for drawing *)
Record corners : Type := mkCorners { cy1 : Q; cx1 : Q; cy2 : Q; cx2 : Q }.

Definition zero_roi : croi := mkRoi 0 0 0.

(** ** Interval and rectangle geometry *)

Definition one_d_intersect (px1 px2 qx1 qx2 : Q) : bool * Q * Q :=
  let zeros := px1 - px1 in
  let interA := Qgtb px1 qx1 in
  let interB := Qgtb px2 qx1 in
  let interC := Qgtb px2 qx2 in
  let interD := Qgtb qx2 px1 in
  let inter := interB && interD in
  let inter_x1 := if negb interA && interB then qx1 else px1 in
  let inter_x2 := if interC && interD then qx2 else px2 in
  let inter_w := inter_x2 - inter_x1 in
  let inter_w := if inter then inter_w else zeros in
  (inter, inter_x1, inter_w).

Definition boxintersect1 (primeroi : box) (min_intersect : Q) (roi : box) : bool :=
  let '(is_inter_x, _, inter_w) := one_d_intersect (bx1 primeroi) (bx2 primeroi) (bx1 roi) (bx2 roi) in
  let '(is_inter_y, _, inter_h) := one_d_intersect (by1 primeroi) (by2 primeroi) (by1 roi) (by2 roi) in
  let inter_area := inter_w * inter_h in
  let parea := (bx2 primeroi - bx1 primeroi) * (by2 primeroi - by1 primeroi) in
  let areas := (bx2 roi - bx1 roi) * (by2 roi - by1 roi) in
  let min_areas := Qmin areas parea in
  let inter := is_inter_x && is_inter_y in
  let inter_with_area := Qgeb inter_area (min_areas * min_intersect) in
  inter && inter_with_area.

Definition boxintersect (primeroi : box) (rois : list box) (min_intersect : Q) : list bool :=
  map (boxintersect1 primeroi min_intersect) rois.

(** ** Grid generation *)

(** shape [[grid_n, grid_n, 2]]: entry (row i, column j) is [(j, i)] *)
Definition gen_grid (grid_n : nat) : list (list (Q * Q)) :=
  map (fun i => map (fun j => (Qnat j, Qnat i)) (seq 0 grid_n)) (seq 0 grid_n).

Definition size_and_move_grid (grid : list (list (Q * Q))) (cell_w : Q) (origin : Q * Q)
  : list (list (Q * Q)) :=
  map (map (fun c => (fst c * cell_w + fst origin, snd c * cell_w + snd origin))) grid.

Definition cxyw_roi (r : box) : croi :=
  mkRoi ((bx1 r + bx2 r) / 2) ((by1 r + by2 r) / 2) (bx2 r - bx1 r).

Definition cxyw_rois (rois : list box) : list croi := map cxyw_roi rois.

Definition gen_grid_for_tile (tile : box) (grid_n : nat) : list (list (Q * Q)) * Q :=
  let cell_w := (bx2 tile - bx1 tile) / Qnat grid_n in
  let grid := gen_grid grid_n in
  (size_and_move_grid grid cell_w (bx1 tile, by1 tile), cell_w).

(** ** Cell containment *)

(** one (cell, ROI) entry of [center_in_grid_cell] *)
Definition has_center1 (cell : Q * Q) (cell_w expand : Q) (r : croi) : bool :=
  let has_center_x :=
    Qgeb (rx r) (fst cell - (expand - 1) * cell_w) && Qltb (rx r) (fst cell + expand * cell_w) in
  let has_center_y :=
    Qgeb (ry r) (snd cell - (expand - 1) * cell_w) && Qltb (ry r) (snd cell + expand * cell_w) in
  has_center_x && has_center_y.

(** [rois] repeated for every cell: shape [[grid_n, grid_n, rois_n, 3]] *)
Definition reshape_rois (rois : list croi) (grid_n : nat) : list (list (list croi)) :=
  repeat (repeat rois grid_n) grid_n.

(** shape [[grid_n, grid_n, rois_n]]; the cell bounds are broadcast over the
    ROI axis *)
Definition center_in_grid_cell (grid : list (list (Q * Q))) (grid_n : nat) (cell_w : Q)
    (rois : list croi) (expand : Q) : list (list (list bool)) :=
  let cross_rois := reshape_rois rois grid_n in
  map2 (map2 (fun cell rs => map (has_center1 cell cell_w expand) rs)) grid cross_rois.

Definition center_in_grid_cell_periphery (grid : list (list (Q * Q))) (grid_n : nat)
    (cell_w : Q) (rois : list croi) (expand : Q) : list (list (list bool)) :=
  let has_center := center_in_grid_cell grid grid_n cell_w rois 1 in
  let has_center_expanded := center_in_grid_cell grid grid_n cell_w rois expand in
  map2 (map2 (map2 (fun e c => e && negb c))) has_center_expanded has_center.

(** ** Per-cell top-n selection *)

Inductive comparator : Type := largest_w | furthest_from_center | closest_to_center.

(** lowest index of a maximal entry, scanning left to right *)
Fixpoint argmax_from (best_i : nat) (best : Q) (i : nat) (l : list Q) : nat :=
  match l with
  | [] => best_i
  | x :: t => if Qgtb x best then argmax_from i x (S i) t
              else argmax_from best_i best (S i) t
  end.

Definition argmax (l : list Q) : nat :=
  match l with [] => O | x :: t => argmax_from 0 x 1 t end.

Fixpoint argmin_from (best_i : nat) (best : Q) (i : nat) (l : list Q) : nat :=
  match l with
  | [] => best_i
  | x :: t => if Qltb x best then argmin_from i x (S i) t
              else argmin_from best_i best (S i) t
  end.

Definition argmin (l : list Q) : nat :=
  match l with [] => O | x :: t => argmin_from 0 x 1 t end.

(** [tf.cast(tf.one_hot(index, depth), tf.bool)] *)
Definition one_hot (index depth : nat) : list bool :=
  map (fun i => Nat.eqb i index) (seq 0 depth).

(** [(grid + grid + cell_w) / 2.0] at one cell *)
Definition grid_center (cell : Q * Q) (cell_w : Q) : Q * Q :=
  ((fst cell + fst cell + cell_w) / 2, (snd cell + snd cell + cell_w) / 2).

Definition d_from_cell_center (g : Q * Q) (r : croi) : Q :=
  Qabs (rx r - fst g) + Qabs (ry r - snd g).

(** the scores handed to [argmax] / [argmin] in one cell *)
Definition scores (cmp : comparator) (g : Q * Q) (rois : list croi) (has_center : list bool)
  : list Q :=
  match cmp with
  | largest_w => map2 (fun b r => cast b * rw r) has_center rois
  | furthest_from_center => map2 (fun b r => cast b * d_from_cell_center g r) has_center rois
  | closest_to_center =>
      map2 (fun (b : bool) r => if b then d_from_cell_center g r else 1000 * 1) has_center rois
  end.

Definition largest_indices (cmp : comparator) (g : Q * Q) (rois : list croi)
    (has_center : list bool) : nat :=
  match cmp with
  | closest_to_center => argmin (scores cmp g rois has_center)
  | _ => argmax (scores cmp g rois has_center)
  end.

(** the mask handed to the next round *)
Definition next_mask (has_center : list bool) (index rois_n : nat) : list bool :=
  let zero_mask := map negb (one_hot index rois_n) in
  map2 andb has_center zero_mask.

(** The loop [for i in range(n)] in one cell: per round, the winning index
    and the mask it was computed from. *)
Fixpoint cell_trace (cmp : comparator) (g : Q * Q) (rois : list croi) (rois_n n : nat)
    (has_center : list bool) : list (nat * list bool) :=
  match n with
  | O => []
  | S n' =>
      let li := largest_indices cmp g rois has_center in
      (li, has_center) :: cell_trace cmp g rois rois_n n' (next_mask has_center li rois_n)
  end.

(** [tf.gather] of the winner, replaced by zeros where no ROI is in the cell.
    The index comes from [argmax]/[argmin] over [rois_n >= 1] entries, so it
    is always in range. *)
Definition round_output (rois : list croi) (t : nat * list bool) : croi :=
  let any_roi_in_cell := existsb (fun b => b) (snd t) in
  let largest_roi_in_cell := nth (fst t) rois zero_roi in
  if any_roi_in_cell then largest_roi_in_cell else zero_roi.

Definition cell_rounds (cmp : comparator) (g : Q * Q) (rois : list croi) (rois_n n : nat)
    (has_center : list bool) : list croi :=
  map (round_output rois) (cell_trace cmp g rois rois_n n has_center).

(** shape [[grid_n, grid_n, n, 3]] *)
Definition n_largest_rois_in_cell (tile : box) (rois : list box) (rois_n grid_n n : nat)
    (cmp : comparator) (expand : Q) : list (list (list croi)) :=
  let '(grid, cell_w) := gen_grid_for_tile tile grid_n in
  let rois := cxyw_rois rois in
  let has_center := center_in_grid_cell grid grid_n cell_w rois expand in
  map2 (map2 (fun cell hc => cell_rounds cmp (grid_center cell cell_w) rois rois_n n hc))
       grid has_center.

(** ** Cell-relative coordinates *)

Definition cell_relative (g : Q * Q) (cell_w tile_w : Q) (tr : croi) : croi :=
  let ctr_x := (rx tr - fst g) / (cell_w / 2) in
  let ctr_y := (ry tr - snd g) / (cell_w / 2) in
  let ctr_w := rw tr / tile_w in
  let ctr_x := if Qgtb (rw tr) 0 then ctr_x else rx tr in
  let ctr_y := if Qgtb (rw tr) 0 then ctr_y else rx tr in
  mkRoi ctr_x ctr_y ctr_w.

Definition make_rois_tile_cell_relative (tile : box) (tiled_rois : list (list (list croi)))
    (grid_n : nat) : list (list (list croi)) :=
  let '(grid, cell_w) := gen_grid_for_tile tile grid_n in
  let tile_w := cell_w * Qnat grid_n in
  map2 (map2 (fun cell trs => map (cell_relative (grid_center cell cell_w) cell_w tile_w) trs))
       grid tiled_rois.

Definition n_largest_rois_in_cell_relative (tile : box) (rois : list box)
    (rois_n grid_n n : nat) (cmp : comparator) (expand : Q) : list (list (list croi)) :=
  let rois := n_largest_rois_in_cell tile rois rois_n grid_n n cmp expand in
  make_rois_tile_cell_relative tile rois grid_n.

(** ** Merging the normal and the periphery selection *)

Inductive result (A : Type) : Type :=
| Ok (a : A)
| AssertionError.
Arguments Ok {A} a.
Arguments AssertionError {A}.

(** [tf.reduce_all(tf.equal(nz, pattern))] *)
Definition pattern (nz : list bool) (pat : list bool) : bool :=
  forallb (fun b => b) (map2 Bool.eqb nz pat).

(** [tf.unstack] into four rows needs exactly four ROIs, which holds for
    [n = 2]; other lengths are rejected by TensorFlow and give [[]] here. *)
Definition roi_select (rois : list croi) : list croi :=
  match rois with
  | [r1; r2; p1; p2] =>
      let a0 := [r1; r1] in
      let a1 := [r1; r2] in
      let a2 := [p1; p1] in
      let a3 := [p1; p2] in
      let a4 := [r1; p1] in
      let a5 := [p2; p2] in
      let a6 := [r1; p2] in
      let a7 := [r2; r2] in
      let a8 := [r2; p2] in
      let a9 := [r2; p1] in
      let nz := map (fun r => Qgtb (rw r) 0) rois in
      let zero := [zero_roi; zero_roi] in
      let r := if pattern nz [false; false; false; false] then a0 else zero in
      let r := if pattern nz [false; false; false; true] then a5 else r in
      let r := if pattern nz [false; false; true; false] then a2 else r in
      let r := if pattern nz [false; false; true; true] then a3 else r in
      let r := if pattern nz [false; true; false; false] then a7 else r in
      let r := if pattern nz [false; true; false; true] then a8 else r in
      let r := if pattern nz [false; true; true; false] then a9 else r in
      let r := if pattern nz [false; true; true; true] then a9 else r in
      let r := if pattern nz [true; false; false; false] then a0 else r in
      let r := if pattern nz [true; false; false; true] then a6 else r in
      let r := if pattern nz [true; false; true; false] then a4 else r in
      let r := if pattern nz [true; false; true; true] then a4 else r in
      let r := if pattern nz [true; true; false; false] then a1 else r in
      let r := if pattern nz [true; true; false; true] then a1 else r in
      let r := if pattern nz [true; true; true; false] then a1 else r in
      let r := if pattern nz [true; true; true; true] then a1 else r in
      r
  | _ => []
  end.

(** lines 254-261 in one cell: [pw] is replaced by zero where
    [tf.equal(rw, pw)] holds; the comparison is element-wise, slot against
    slot *)
Definition exclude_periph (normal periph : list croi) : list croi :=
  map2 (fun r p =>
          let roi_exclude := Qeq_bool (rw r) (rw p) in
          mkRoi (rx p) (ry p) (if roi_exclude then 0 else rw p))
       normal periph.

(** the de-duplicated periphery selection, shape [[grid_n, grid_n, n, 3]]
    (the source holds it reshaped to [[grid_n * grid_n, n, 3]]) *)
Definition rsperiph_rois (normal_rois periph_rois : list (list (list croi)))
  : list (list (list croi)) :=
  map2 (map2 exclude_periph) normal_rois periph_rois.

Definition combine_rois (normal_rois periph_rois : list (list (list croi)))
  : list (list (list croi)) :=
  map2 (map2 (fun nr pr => roi_select (nr ++ pr)))
       normal_rois (rsperiph_rois normal_rois periph_rois).

Definition n_experimental_roi_selection_strategy (tile : box) (rois : list box)
    (rois_n grid_n n : nat) : result (list (list (list croi))) :=
  if negb (Nat.eqb n 2) then AssertionError
  else
    let normal_rois :=
      n_largest_rois_in_cell_relative tile rois rois_n grid_n n closest_to_center 1 in
    let periph_rois :=
      n_largest_rois_in_cell_relative tile rois rois_n grid_n n closest_to_center (13 # 10) in
    Ok (combine_rois normal_rois periph_rois).

(** ** Back to tile coordinates *)

Definition to_tile_coords (g : Q * Q) (cell_w tile_size : Q) (r : croi) : corners :=
  let roi_cx := rx r * cell_w / 2 in
  let roi_cx := roi_cx + fst g in
  let roi_cy := ry r * cell_w / 2 in
  let roi_cy := roi_cy + snd g in
  let roi_w := rw r * tile_size in
  let roi_x1 := roi_cx - roi_w / 2 in
  let roi_x2 := roi_cx + roi_w / 2 in
  let roi_y1 := roi_cy - roi_w / 2 in
  let roi_y2 := roi_cy + roi_w / 2 in
  mkCorners roi_y1 roi_x1 roi_y2 roi_x2.

(** [rois] has shape [[batch, grid_n, grid_n, n, 3]] *)
Definition grid_cell_to_tile_coords (rois : list (list (list (list croi)))) (grid_n : nat)
    (tile_size : Q) : list (list (list (list corners))) :=
  let cell_w := tile_size / Qnat grid_n in
  let grid := map (map (fun c => (fst c * cell_w, snd c * cell_w))) (gen_grid grid_n) in
  map (fun image =>
         map2 (map2 (fun cell rs =>
                       map (to_tile_coords (grid_center cell cell_w) cell_w tile_size) rs))
              grid image)
      rois.

(** ** Naming the parts of a call

    The cell width and the cell origins that [gen_grid_for_tile] computes,
    the shape of a per-cell tensor, and the rounds of one cell. *)

Definition tile_cell_w (tile : box) (grid_n : nat) : Q :=
  (bx2 tile - bx1 tile) / Qnat grid_n.

(** top-left corner of the cell in row [i], column [j] *)
Definition cell_origin (tile : box) (grid_n i j : nat) : Q * Q :=
  (Qnat j * tile_cell_w tile grid_n + bx1 tile, Qnat i * tile_cell_w tile grid_n + by1 tile).

(** a tensor with one entry per grid cell *)
Definition grid_shaped {A : Type} (grid_n : nat) (t : list (list A)) : Prop :=
  length t = grid_n /\ forall i, (i < grid_n)%nat -> length (nth i t []) = grid_n.

(** the rounds of cell (i, j) in a call of [n_largest_rois_in_cell]: winning
    index and mask of each round *)
Definition selection_trace (tile : box) (rois : list box) (rois_n grid_n n : nat)
    (cmp : comparator) (expand : Q) (i j : nat) : list (nat * list bool) :=
  cell_trace cmp (grid_center (cell_origin tile grid_n i j) (tile_cell_w tile grid_n))
             (cxyw_rois rois) rois_n n
             (map (has_center1 (cell_origin tile grid_n i j) (tile_cell_w tile grid_n) expand)
                  (cxyw_rois rois)).

(** number of ROIs a mask holds *)
Definition contained_count (has_center : list bool) : nat :=
  length (filter (fun b => b) has_center).

(** what a comparator ranks by; larger is better *)
Definition rank (cmp : comparator) (g : Q * Q) (r : croi) : Q :=
  match cmp with
  | largest_w => rw r
  | furthest_from_center => d_from_cell_center g r
  | closest_to_center => - d_from_cell_center g r
  end.

(** every candidate scores strictly better than a masked-out entry, whose
    score is 0 under [argmax] and 1000 under [argmin] *)
Definition beats_sentinel (cmp : comparator) (g : Q * Q) (rois : list croi) : Prop :=
  match cmp with
  | largest_w => forall r, In r rois -> 0 < rw r
  | furthest_from_center => forall r, In r rois -> 0 < d_from_cell_center g r
  | closest_to_center => forall r, In r rois -> d_from_cell_center g r < 1000
  end.

(** * Properties *)

(** ** Boolean comparisons *)

Lemma Qgtb_true (a b : Q) : Qgtb a b = true <-> b < a.
Proof.
  unfold Qgtb. rewrite negb_true_iff. split; intro H.
  - apply Qnot_le_lt. intro Hle. apply Qle_bool_iff in Hle. congruence.
  - destruct (Qle_bool a b) eqn:E; [|reflexivity].
    apply Qle_bool_iff in E. exfalso. lra.
Qed.

Lemma Qgtb_false (a b : Q) : Qgtb a b = false <-> a <= b.
Proof.
  unfold Qgtb. rewrite negb_false_iff. apply Qle_bool_iff.
Qed.

Lemma Qltb_true (a b : Q) : Qltb a b = true <-> a < b.
Proof. exact (Qgtb_true b a). Qed.

Lemma Qltb_false (a b : Q) : Qltb a b = false <-> b <= a.
Proof. exact (Qgtb_false b a). Qed.

Lemma Qgeb_true (a b : Q) : Qgeb a b = true <-> b <= a.
Proof. unfold Qgeb. apply Qle_bool_iff. Qed.

Lemma Qgeb_false (a b : Q) : Qgeb a b = false <-> a < b.
Proof.
  unfold Qgeb. split; intro H.
  - apply Qnot_le_lt. intro Hle. apply Qle_bool_iff in Hle. congruence.
  - destruct (Qle_bool b a) eqn:E; [|reflexivity].
    apply Qle_bool_iff in E. exfalso. lra.
Qed.

(** case analysis on a comparison, leaving the order fact in the context *)
Ltac cmp_cases a b :=
  let E := fresh "E" in
  destruct (Qgtb a b) eqn:E;
  [apply Qgtb_true in E | apply Qgtb_false in E].

(** ** Interval intersection *)

Section Intervals.
Variables p1 p2 q1 q2 : Q.

Lemma one_d_intersect_flag :
  fst (fst (one_d_intersect p1 p2 q1 q2)) = true <-> q1 < p2 /\ p1 < q2.
Proof.
  unfold one_d_intersect; simpl.
  rewrite andb_true_iff, !Qgtb_true. tauto.
Qed.

Lemma one_d_intersect_disjoint :
  p2 <= q1 \/ q2 <= p1 ->
  fst (fst (one_d_intersect p1 p2 q1 q2)) = false /\
  snd (one_d_intersect p1 p2 q1 q2) == 0.
Proof.
  intro H. unfold one_d_intersect; simpl.
  assert (Hf : Qgtb p2 q1 && Qgtb q2 p1 = false).
  { apply andb_false_iff. rewrite !Qgtb_false. exact H. }
  rewrite Hf. split; [reflexivity | lra].
Qed.

Lemma one_d_intersect_overlap :
  q1 < p2 -> p1 < q2 ->
  fst (fst (one_d_intersect p1 p2 q1 q2)) = true /\
  snd (fst (one_d_intersect p1 p2 q1 q2)) == Qmax p1 q1 /\
  snd (one_d_intersect p1 p2 q1 q2) == Qmin p2 q2 - Qmax p1 q1.
Proof.
  intros HB HD. unfold one_d_intersect; simpl.
  assert (EB : Qgtb p2 q1 = true) by (apply Qgtb_true; exact HB).
  assert (ED : Qgtb q2 p1 = true) by (apply Qgtb_true; exact HD).
  rewrite EB, ED; simpl. rewrite !andb_true_r.
  assert (Hmax : (if negb (Qgtb p1 q1) then q1 else p1) == Qmax p1 q1).
  { cmp_cases p1 q1; simpl.
    - rewrite Q.max_l; [reflexivity | lra].
    - rewrite Q.max_r; [reflexivity | lra]. }
  assert (Hmin : (if Qgtb p2 q2 then q2 else p2) == Qmin p2 q2).
  { cmp_cases p2 q2; simpl.
    - rewrite Q.min_r; [reflexivity | lra].
    - rewrite Q.min_l; [reflexivity | lra]. }
  repeat split.
  - exact Hmax.
  - rewrite Hmax, Hmin. reflexivity.
Qed.
End Intervals.

(** C4 (as stated, refuted): the degenerate interval [1,1] lies strictly
    inside [0,2]; the code reports an intersection, and its length is 0,
    not strictly positive. *)
Lemma one_d_intersect_degenerate_inside :
  1 <= 1 /\ 0 <= 2 /\ ~ (1 <= 0 \/ 2 <= 1) /\
  one_d_intersect 1 1 0 2 = (true, 1, 0) /\
  ~ 0 < snd (one_d_intersect 1 1 0 2).
Proof.
  split; [lra|]. split; [lra|]. split; [|split].
  - intros [H | H]; lra.
  - reflexivity.
  - simpl. lra.
Qed.

(** C4 (amended): for intervals with p1 <= p2 and q1 <= q2, [one_d_intersect]
    returns does_intersect = false and length 0 whenever p2 <= q1 or
    q2 <= p1; otherwise it returns does_intersect = true, start max(p1,q1)
    and length min(p2,q2) - max(p1,q1); that length is never negative, and
    it is strictly positive when both intervals are non-degenerate
    (p1 < p2 and q1 < q2). *)
Theorem one_d_intersect_spec (p1 p2 q1 q2 : Q) :
  p1 <= p2 -> q1 <= q2 ->
  (p2 <= q1 \/ q2 <= p1 ->
     fst (fst (one_d_intersect p1 p2 q1 q2)) = false /\
     snd (one_d_intersect p1 p2 q1 q2) == 0) /\
  (~ (p2 <= q1 \/ q2 <= p1) ->
     fst (fst (one_d_intersect p1 p2 q1 q2)) = true /\
     snd (fst (one_d_intersect p1 p2 q1 q2)) == Qmax p1 q1 /\
     snd (one_d_intersect p1 p2 q1 q2) == Qmin p2 q2 - Qmax p1 q1 /\
     0 <= snd (one_d_intersect p1 p2 q1 q2) /\
     (p1 < p2 -> q1 < q2 -> 0 < snd (one_d_intersect p1 p2 q1 q2))).
Proof.
  intros Hp Hq. split.
  - apply one_d_intersect_disjoint.
  - intro Hn.
    assert (HB : q1 < p2) by (apply Qnot_le_lt; tauto).
    assert (HD : p1 < q2) by (apply Qnot_le_lt; tauto).
    destruct (one_d_intersect_overlap p1 p2 q1 q2 HB HD) as (Hf & Hs & Hw).
    repeat split; try assumption.
    + rewrite Hw.
      destruct (Q.max_spec p1 q1) as [[? ->] | [? ->]];
        destruct (Q.min_spec p2 q2) as [[? ->] | [? ->]]; lra.
    + intros Hp' Hq'. rewrite Hw.
      destruct (Q.max_spec p1 q1) as [[? ->] | [? ->]];
        destruct (Q.min_spec p2 q2) as [[? ->] | [? ->]]; lra.
Qed.

Lemma one_d_intersect_spec_witness :
  fst (fst (one_d_intersect 0 2 1 3)) = true /\
  0 < snd (one_d_intersect 0 2 1 3).
Proof.
  assert (Hp : 0 <= 2) by lra.
  assert (Hq : 1 <= 3) by lra.
  destruct (one_d_intersect_spec 0 2 1 3 Hp Hq) as [_ H].
  assert (Hn : ~ (2 <= 1 \/ 3 <= 0)) by (intros [H' | H']; lra).
  destruct (H Hn) as (Hf & _ & _ & _ & Hpos).
  split; [exact Hf | apply Hpos; lra].
Defined.

(** ** Rectangle intersection *)

Lemma boxintersect1_self (r : box) :
  bx1 r < bx2 r -> by1 r < by2 r -> boxintersect1 r 1 r = true.
Proof.
  intros Hx Hy. unfold boxintersect1.
  destruct (one_d_intersect_overlap _ _ _ _ Hx Hx) as (Hfx & _ & Hwx).
  destruct (one_d_intersect_overlap _ _ _ _ Hy Hy) as (Hfy & _ & Hwy).
  destruct (one_d_intersect (bx1 r) (bx2 r) (bx1 r) (bx2 r)) as [[ix sx] iw].
  destruct (one_d_intersect (by1 r) (by2 r) (by1 r) (by2 r)) as [[iy sy] ih].
  simpl in *. subst ix iy. simpl.
  apply Qgeb_true. rewrite Hwx, Hwy, !Q.min_id, !Q.max_id. lra.
Qed.

(** C5 (as stated, refuted): a rectangle of height zero satisfies x2 >= x1
    and y2 >= y1, yet it does not intersect itself. *)
Lemma boxintersect_self_degenerate :
  let r := mkBox 0 0 3 0 in
  bx1 r <= bx2 r /\ by1 r <= by2 r /\ boxintersect r [r] 1 = [false].
Proof.
  simpl. split; [lra|]. split; [lra|]. reflexivity.
Qed.

(** C5 (amended): for every rectangle r with x2 > x1 and y2 > y1 (non-zero
    area), [boxintersect r [r] 1.0] returns true. *)
Theorem boxintersect_self (r : box) :
  bx1 r < bx2 r -> by1 r < by2 r -> boxintersect r [r] 1 = [true].
Proof.
  intros Hx Hy. unfold boxintersect. simpl.
  rewrite boxintersect1_self by assumption. reflexivity.
Qed.

Lemma boxintersect_self_witness :
  boxintersect (mkBox 0 0 3 2) [mkBox 0 0 3 2] 1 = [true].
Proof.
  apply (boxintersect_self (mkBox 0 0 3 2)); simpl; lra.
Defined.

(** ** Indexing nested tensors *)

Lemma map2_length {A B C : Type} (f : A -> B -> C) (l : list A) (m : list B) :
  length (map2 f l m) = Nat.min (length l) (length m).
Proof.
  revert m. induction l as [|a l IH]; intros [|b m]; simpl; auto.
Qed.

Lemma nth_map2 {A B C : Type} (f : A -> B -> C) (l : list A) (m : list B)
    (i : nat) (da : A) (db : B) (dc : C) :
  (i < length l)%nat -> (i < length m)%nat ->
  nth i (map2 f l m) dc = f (nth i l da) (nth i m db).
Proof.
  revert m i. induction l as [|a l IH]; intros [|b m] i Hl Hm; simpl in *; try lia.
  destruct i as [|i]; [reflexivity | apply IH; lia].
Qed.

Lemma nth_map_lt {A B : Type} (f : A -> B) (l : list A) (i : nat) (da : A) (db : B) :
  (i < length l)%nat -> nth i (map f l) db = f (nth i l da).
Proof.
  revert i. induction l as [|a l IH]; intros [|i] H; simpl in *; try lia; auto.
  apply IH. lia.
Qed.

Lemma nth_map_seq {A : Type} (f : nat -> A) (n i : nat) (d : A) :
  (i < n)%nat -> nth i (map f (seq 0 n)) d = f i.
Proof.
  intro H. rewrite (nth_indep _ d (f 0%nat)) by (rewrite length_map, length_seq; exact H).
  rewrite (map_nth f), seq_nth by exact H. reflexivity.
Qed.

Lemma nth_repeat_lt {A : Type} (a d : A) (n i : nat) :
  (i < n)%nat -> nth i (repeat a n) d = a.
Proof.
  revert i. induction n as [|n IH]; intros [|i] H; simpl; try lia; auto.
  apply IH. lia.
Qed.

(** ** The grid of a tile *)

Section Grid.
Variable tile : box.
Variable grid_n : nat.

Lemma gen_grid_length : length (gen_grid grid_n) = grid_n.
Proof. unfold gen_grid. rewrite length_map, length_seq. reflexivity. Qed.

Lemma gen_grid_row_length (i : nat) :
  (i < grid_n)%nat -> length (nth i (gen_grid grid_n) []) = grid_n.
Proof.
  intro H. unfold gen_grid. rewrite nth_map_seq by exact H.
  rewrite length_map, length_seq. reflexivity.
Qed.

Lemma gen_grid_nth (i j : nat) :
  (i < grid_n)%nat -> (j < grid_n)%nat ->
  nth j (nth i (gen_grid grid_n) []) (0, 0) = (Qnat j, Qnat i).
Proof.
  intros Hi Hj. unfold gen_grid.
  rewrite nth_map_seq by exact Hi. rewrite nth_map_seq by exact Hj. reflexivity.
Qed.

Lemma tile_grid_length : length (fst (gen_grid_for_tile tile grid_n)) = grid_n.
Proof.
  unfold gen_grid_for_tile, size_and_move_grid; simpl.
  rewrite length_map. apply gen_grid_length.
Qed.

Lemma tile_grid_row (i : nat) :
  (i < grid_n)%nat ->
  nth i (fst (gen_grid_for_tile tile grid_n)) [] =
  map (fun c => (fst c * tile_cell_w tile grid_n + bx1 tile,
                 snd c * tile_cell_w tile grid_n + by1 tile))
      (nth i (gen_grid grid_n) []).
Proof.
  intro Hi. unfold gen_grid_for_tile, size_and_move_grid; simpl.
  apply nth_map_lt. rewrite gen_grid_length. exact Hi.
Qed.

Lemma tile_grid_row_length (i : nat) :
  (i < grid_n)%nat -> length (nth i (fst (gen_grid_for_tile tile grid_n)) []) = grid_n.
Proof.
  intro Hi. rewrite tile_grid_row by exact Hi.
  rewrite length_map. apply gen_grid_row_length. exact Hi.
Qed.

Lemma tile_grid_nth (i j : nat) :
  (i < grid_n)%nat -> (j < grid_n)%nat ->
  nth j (nth i (fst (gen_grid_for_tile tile grid_n)) []) (0, 0) = cell_origin tile grid_n i j.
Proof.
  intros Hi Hj. rewrite tile_grid_row by exact Hi.
  rewrite (nth_map_lt _ _ _ (0, 0)) by (rewrite gen_grid_row_length; assumption).
  rewrite gen_grid_nth by assumption. reflexivity.
Qed.

(** one cell of the containment mask *)
Lemma center_in_grid_cell_nth (rois : list croi) (expand : Q) (i j : nat) :
  (i < grid_n)%nat -> (j < grid_n)%nat ->
  nth j (nth i (center_in_grid_cell (fst (gen_grid_for_tile tile grid_n)) grid_n
                                    (tile_cell_w tile grid_n) rois expand) []) [] =
  map (has_center1 (cell_origin tile grid_n i j) (tile_cell_w tile grid_n) expand) rois.
Proof.
  intros Hi Hj. unfold center_in_grid_cell, reshape_rois.
  rewrite (nth_map2 _ _ _ i [] [])
    by (rewrite ?tile_grid_length, ?repeat_length; exact Hi).
  rewrite nth_repeat_lt by exact Hi.
  rewrite (nth_map2 _ _ _ j (0, 0) [])
    by (rewrite ?tile_grid_row_length, ?repeat_length; assumption).
  rewrite nth_repeat_lt by exact Hj.
  rewrite tile_grid_nth by assumption. reflexivity.
Qed.

Lemma center_in_grid_cell_length (rois : list croi) (expand : Q) :
  length (center_in_grid_cell (fst (gen_grid_for_tile tile grid_n)) grid_n
                              (tile_cell_w tile grid_n) rois expand) = grid_n.
Proof.
  unfold center_in_grid_cell, reshape_rois.
  rewrite map2_length, tile_grid_length, repeat_length. lia.
Qed.

Lemma center_in_grid_cell_row_length (rois : list croi) (expand : Q) (i : nat) :
  (i < grid_n)%nat ->
  length (nth i (center_in_grid_cell (fst (gen_grid_for_tile tile grid_n)) grid_n
                                     (tile_cell_w tile grid_n) rois expand) []) = grid_n.
Proof.
  intro Hi. unfold center_in_grid_cell, reshape_rois.
  rewrite (nth_map2 _ _ _ i [] [])
    by (rewrite ?tile_grid_length, ?repeat_length; exact Hi).
  rewrite map2_length, tile_grid_row_length, nth_repeat_lt, repeat_length by exact Hi.
  lia.
Qed.

(** one cell of the selection *)
Lemma n_largest_rois_in_cell_nth (rois : list box) (rois_n n : nat)
    (cmp : comparator) (expand : Q) (i j : nat) :
  (i < grid_n)%nat -> (j < grid_n)%nat ->
  nth j (nth i (n_largest_rois_in_cell tile rois rois_n grid_n n cmp expand) []) [] =
  cell_rounds cmp (grid_center (cell_origin tile grid_n i j) (tile_cell_w tile grid_n)) (cxyw_rois rois) rois_n n
              (map (has_center1 (cell_origin tile grid_n i j) (tile_cell_w tile grid_n) expand) (cxyw_rois rois)).
Proof.
  intros Hi Hj. unfold n_largest_rois_in_cell.
  change (gen_grid_for_tile tile grid_n)
    with (fst (gen_grid_for_tile tile grid_n), (tile_cell_w tile grid_n)).
  cbv beta iota.
  rewrite (nth_map2 _ _ _ i [] [])
    by (rewrite ?tile_grid_length, ?center_in_grid_cell_length; exact Hi).
  rewrite (nth_map2 _ _ _ j (0, 0) [])
    by (rewrite ?tile_grid_row_length, ?center_in_grid_cell_row_length; assumption).
  rewrite tile_grid_nth, center_in_grid_cell_nth by assumption. reflexivity.
Qed.
End Grid.

(** ** The cell windows partition the tile *)


Lemma Qnat_nonneg (n : nat) : 0 <= Qnat n.
Proof.
  unfold Qnat. change 0 with (inject_Z 0). rewrite <- Zle_Qle. lia.
Qed.

Lemma Qnat_pos (n : nat) : (0 < n)%nat -> 0 < Qnat n.
Proof.
  intro H. unfold Qnat. change 0 with (inject_Z 0). rewrite <- Zlt_Qlt. lia.
Qed.





Section Partition.
Variable tile : box.
Variable grid_n : nat.
Hypothesis tile_wide : bx1 tile < bx2 tile.
Hypothesis grid_pos : (0 < grid_n)%nat.




End Partition.



(** ** Cell-relative coordinates and back *)

Lemma make_rois_tile_cell_relative_nth (tile : box) (tiled_rois : list (list (list croi)))
    (grid_n i j : nat) :
  grid_shaped grid_n tiled_rois -> (i < grid_n)%nat -> (j < grid_n)%nat ->
  nth j (nth i (make_rois_tile_cell_relative tile tiled_rois grid_n) []) [] =
  map (cell_relative (grid_center (cell_origin tile grid_n i j) (tile_cell_w tile grid_n))
                     (tile_cell_w tile grid_n) (tile_cell_w tile grid_n * Qnat grid_n))
      (nth j (nth i tiled_rois []) []).
Proof.
  intros [Hlen Hrow] Hi Hj. unfold make_rois_tile_cell_relative.
  change (gen_grid_for_tile tile grid_n)
    with (fst (gen_grid_for_tile tile grid_n), tile_cell_w tile grid_n).
  cbv beta iota.
  rewrite (nth_map2 _ _ _ i [] []) by (rewrite ?tile_grid_length, ?Hlen; exact Hi).
  rewrite (nth_map2 _ _ _ j (0, 0) [])
    by (rewrite ?tile_grid_row_length, ?Hrow; assumption).
  rewrite tile_grid_nth by assumption. reflexivity.
Qed.

Lemma grid_center_origin (tile : box) (grid_n i j : nat) :
  fst (grid_center (cell_origin tile grid_n i j) (tile_cell_w tile grid_n))
    == bx1 tile + (Qnat j + (1 # 2)) * tile_cell_w tile grid_n /\
  snd (grid_center (cell_origin tile grid_n i j) (tile_cell_w tile grid_n))
    == by1 tile + (Qnat i + (1 # 2)) * tile_cell_w tile grid_n.
Proof.
  unfold grid_center, cell_origin; simpl. split; field.
Qed.

Lemma tile_w_total (tile : box) (grid_n : nat) :
  (0 < grid_n)%nat -> tile_cell_w tile grid_n * Qnat grid_n == bx2 tile - bx1 tile.
Proof.
  intro Hg. unfold tile_cell_w. field.
  intro H. pose proof (Qnat_pos grid_n Hg). lra.
Qed.

(** C7: in [make_rois_tile_cell_relative] over a tile of positive width, a
    slot of width zero keeps ctr_w = 0 and gets its x value as both ctr_x
    and ctr_y; a slot of width greater than zero gets
    ((x - cell_center_x) / (cell_w / 2),
    (y - cell_center_y) / (cell_w / 2), w / tile_w), where the cell centre
    of cell (i, j) is (x1 + (j + 1/2) cell_w, y1 + (i + 1/2) cell_w),
    cell_w = (x2 - x1) / grid_n and tile_w = x2 - x1. *)
Theorem make_rois_tile_cell_relative_slot (tile : box)
    (tiled_rois : list (list (list croi))) (grid_n i j k : nat) :
  let cell_w := (bx2 tile - bx1 tile) / Qnat grid_n in
  let tile_w := bx2 tile - bx1 tile in
  let cell_center_x := bx1 tile + (Qnat j + (1 # 2)) * cell_w in
  let cell_center_y := by1 tile + (Qnat i + (1 # 2)) * cell_w in
  let tr := nth k (nth j (nth i tiled_rois []) []) zero_roi in
  let out :=
    nth k (nth j (nth i (make_rois_tile_cell_relative tile tiled_rois grid_n) []) [])
        zero_roi in
  bx1 tile < bx2 tile ->
  grid_shaped grid_n tiled_rois -> (i < grid_n)%nat -> (j < grid_n)%nat ->
  (k < length (nth j (nth i tiled_rois []) []))%nat ->
  (rw tr == 0 -> rw out == 0 /\ rx out = rx tr /\ ry out = rx tr) /\
  (0 < rw tr ->
     rx out == (rx tr - cell_center_x) / (cell_w / 2) /\
     ry out == (ry tr - cell_center_y) / (cell_w / 2) /\
     rw out == rw tr / tile_w).
Proof.
  intros cell_w tile_w cell_center_x cell_center_y tr out _ Hs Hi Hj Hk.
  assert (Hout : out = cell_relative
                         (grid_center (cell_origin tile grid_n i j) (tile_cell_w tile grid_n))
                         (tile_cell_w tile grid_n) (tile_cell_w tile grid_n * Qnat grid_n) tr).
  { subst out tr. rewrite make_rois_tile_cell_relative_nth by assumption.
    apply nth_map_lt. exact Hk. }
  assert (Hg : (0 < grid_n)%nat) by lia.
  destruct (grid_center_origin tile grid_n i j) as [Hcx Hcy].
  pose proof (tile_w_total tile grid_n Hg) as Htw.
  rewrite Hout. unfold cell_relative; simpl. split.
  - intro Hz.
    assert (E : Qgtb (rw tr) 0 = false) by (apply Qgtb_false; lra).
    rewrite E. split; [|split; reflexivity].
    rewrite Hz. unfold Qdiv. ring.
  - intro Hp.
    assert (E : Qgtb (rw tr) 0 = true) by (apply Qgtb_true; exact Hp).
    rewrite E. rewrite Hcx, Hcy, Htw. repeat split; reflexivity.
Qed.

Lemma make_rois_tile_cell_relative_slot_witness :
  let tile := mkBox 0 0 10 10 in
  let tiled := [[[mkRoi 2 3 4; mkRoi 7 8 0]]] in
  let out := nth 1 (nth 0 (nth 0 (make_rois_tile_cell_relative tile tiled 1) []) []) zero_roi in
  rw out == 0 /\ rx out = 7 /\ ry out = 7.
Proof.
  intros tile tiled out.
  assert (Hs : grid_shaped 1 tiled).
  { split; [reflexivity|]. intros i Hi. destruct i; [reflexivity | lia]. }
  refine (proj1 (make_rois_tile_cell_relative_slot tile tiled 1 0 0 1 _ Hs _ _ _) _);
    simpl; try lia; lra.
Defined.

Lemma make_rois_tile_cell_relative_shape (tile : box)
    (tiled_rois : list (list (list croi))) (grid_n : nat) :
  grid_shaped grid_n tiled_rois ->
  grid_shaped grid_n (make_rois_tile_cell_relative tile tiled_rois grid_n).
Proof.
  intros [Hlen Hrow]. unfold make_rois_tile_cell_relative.
  change (gen_grid_for_tile tile grid_n)
    with (fst (gen_grid_for_tile tile grid_n), tile_cell_w tile grid_n).
  cbv beta iota. split.
  - rewrite map2_length, tile_grid_length, Hlen. lia.
  - intros i Hi.
    rewrite (nth_map2 _ _ _ i [] []) by (rewrite ?tile_grid_length, ?Hlen; exact Hi).
    rewrite map2_length, tile_grid_row_length, Hrow by exact Hi. lia.
Qed.

(** one slot of [grid_cell_to_tile_coords]; the grid is the one of the tile
    [(0, 0, tile_size, tile_size)] *)
Lemma grid_cell_to_tile_coords_nth (rois : list (list (list (list croi))))
    (grid_n : nat) (tile_size : Q) (b i j : nat) :
  (b < length rois)%nat -> grid_shaped grid_n (nth b rois []) ->
  (i < grid_n)%nat -> (j < grid_n)%nat ->
  nth j (nth i (nth b (grid_cell_to_tile_coords rois grid_n tile_size) []) []) [] =
  map (to_tile_coords
         (grid_center (Qnat j * (tile_size / Qnat grid_n), Qnat i * (tile_size / Qnat grid_n))
                      (tile_size / Qnat grid_n))
         (tile_size / Qnat grid_n) tile_size)
      (nth j (nth i (nth b rois []) []) []).
Proof.
  intros Hb [Hlen Hrow] Hi Hj. unfold grid_cell_to_tile_coords.
  rewrite (nth_map_lt _ _ _ []) by exact Hb.
  set (cell_w := tile_size / Qnat grid_n).
  set (sc := fun c : Q * Q => (fst c * cell_w, snd c * cell_w)).
  assert (Hgl : length (map (map sc) (gen_grid grid_n)) = grid_n)
    by (rewrite length_map; apply gen_grid_length).
  assert (Hgr : nth i (map (map sc) (gen_grid grid_n)) [] = map sc (nth i (gen_grid grid_n) []))
    by (apply nth_map_lt; rewrite gen_grid_length; exact Hi).
  rewrite (nth_map2 _ _ _ i [] []) by (rewrite ?Hgl, ?Hlen; exact Hi).
  rewrite Hgr.
  rewrite (nth_map2 _ _ _ j (0, 0) [])
    by (rewrite ?length_map, ?gen_grid_row_length, ?Hrow; assumption).
  rewrite (nth_map_lt _ _ _ (0, 0)) by (rewrite gen_grid_row_length; assumption).
  rewrite gen_grid_nth by assumption. reflexivity.
Qed.




(** ** Shapes of the selection tensors *)

Lemma cell_trace_length (cmp : comparator) (g : Q * Q) (rois : list croi) (rois_n n : nat)
    (has_center : list bool) :
  length (cell_trace cmp g rois rois_n n has_center) = n.
Proof.
  revert has_center. induction n as [|n IH]; intro hc; simpl; [reflexivity|].
  rewrite IH. reflexivity.
Qed.

Lemma cell_rounds_length (cmp : comparator) (g : Q * Q) (rois : list croi) (rois_n n : nat)
    (has_center : list bool) :
  length (cell_rounds cmp g rois rois_n n has_center) = n.
Proof. unfold cell_rounds. rewrite length_map. apply cell_trace_length. Qed.

Section SelectionShape.
Variable tile : box.
Variable rois : list box.
Variables rois_n grid_n n : nat.
Variable cmp : comparator.
Variable expand : Q.

Lemma n_largest_rois_in_cell_shape :
  grid_shaped grid_n (n_largest_rois_in_cell tile rois rois_n grid_n n cmp expand).
Proof.
  unfold n_largest_rois_in_cell.
  change (gen_grid_for_tile tile grid_n)
    with (fst (gen_grid_for_tile tile grid_n), tile_cell_w tile grid_n).
  cbv beta iota. split.
  - rewrite map2_length, tile_grid_length, center_in_grid_cell_length. lia.
  - intros i Hi.
    rewrite (nth_map2 _ _ _ i [] [])
      by (rewrite ?tile_grid_length, ?center_in_grid_cell_length; exact Hi).
    rewrite map2_length, tile_grid_row_length, center_in_grid_cell_row_length by exact Hi.
    lia.
Qed.

Lemma n_largest_rois_in_cell_relative_shape :
  grid_shaped grid_n (n_largest_rois_in_cell_relative tile rois rois_n grid_n n cmp expand).
Proof.
  unfold n_largest_rois_in_cell_relative.
  apply make_rois_tile_cell_relative_shape, n_largest_rois_in_cell_shape.
Qed.

Lemma n_largest_rois_in_cell_relative_nth (i j : nat) :
  (i < grid_n)%nat -> (j < grid_n)%nat ->
  nth j (nth i (n_largest_rois_in_cell_relative tile rois rois_n grid_n n cmp expand) []) [] =
  map (cell_relative (grid_center (cell_origin tile grid_n i j) (tile_cell_w tile grid_n))
                     (tile_cell_w tile grid_n) (tile_cell_w tile grid_n * Qnat grid_n))
      (cell_rounds cmp (grid_center (cell_origin tile grid_n i j) (tile_cell_w tile grid_n))
                   (cxyw_rois rois) rois_n n
                   (map (has_center1 (cell_origin tile grid_n i j) (tile_cell_w tile grid_n)
                                     expand) (cxyw_rois rois))).
Proof.
  intros Hi Hj. unfold n_largest_rois_in_cell_relative.
  rewrite make_rois_tile_cell_relative_nth
    by (try apply n_largest_rois_in_cell_shape; assumption).
  rewrite n_largest_rois_in_cell_nth by assumption. reflexivity.
Qed.

Lemma n_largest_rois_in_cell_relative_cell_length (i j : nat) :
  (i < grid_n)%nat -> (j < grid_n)%nat ->
  length (nth j (nth i (n_largest_rois_in_cell_relative tile rois rois_n grid_n n cmp expand)
                     []) []) = n.
Proof.
  intros Hi Hj. rewrite n_largest_rois_in_cell_relative_nth by assumption.
  rewrite length_map. apply cell_rounds_length.
Qed.
End SelectionShape.

(** ** The merger *)

(** C8: [n_experimental_roi_selection_strategy] stops with an assertion
    error exactly when the slot count n differs from 2; it returns a tensor
    (and so truncates nothing) only for n = 2, and for n = 2 it does
    return one. *)
Theorem n_experimental_roi_selection_strategy_asserts (tile : box) (rois : list box)
    (rois_n grid_n n : nat) :
  match n_experimental_roi_selection_strategy tile rois rois_n grid_n n with
  | AssertionError => n <> 2%nat
  | Ok _ => n = 2%nat
  end.
Proof.
  unfold n_experimental_roi_selection_strategy.
  destruct (Nat.eqb n 2) eqn:E; simpl.
  - apply Nat.eqb_eq. exact E.
  - apply Nat.eqb_neq. exact E.
Qed.

Lemma rsperiph_rois_nth (grid_n : nat) (normal_rois periph_rois : list (list (list croi)))
    (i j : nat) :
  grid_shaped grid_n normal_rois -> grid_shaped grid_n periph_rois ->
  (i < grid_n)%nat -> (j < grid_n)%nat ->
  nth j (nth i (rsperiph_rois normal_rois periph_rois) []) [] =
  exclude_periph (nth j (nth i normal_rois []) []) (nth j (nth i periph_rois []) []).
Proof.
  intros [Ln Rn] [Lp Rp] Hi Hj. unfold rsperiph_rois.
  rewrite (nth_map2 _ _ _ i [] []) by (rewrite ?Ln, ?Lp; exact Hi).
  rewrite (nth_map2 _ _ _ j [] []) by (rewrite ?Rn, ?Rp; assumption).
  reflexivity.
Qed.

Lemma rsperiph_rois_shape (grid_n : nat) (normal_rois periph_rois : list (list (list croi))) :
  grid_shaped grid_n normal_rois -> grid_shaped grid_n periph_rois ->
  grid_shaped grid_n (rsperiph_rois normal_rois periph_rois).
Proof.
  intros [Ln Rn] [Lp Rp]. unfold rsperiph_rois. split.
  - rewrite map2_length, Ln, Lp. lia.
  - intros i Hi.
    rewrite (nth_map2 _ _ _ i [] []) by (rewrite ?Ln, ?Lp; exact Hi).
    rewrite map2_length, Rn, Rp by exact Hi. lia.
Qed.

Lemma combine_rois_nth (grid_n : nat) (normal_rois periph_rois : list (list (list croi)))
    (i j : nat) :
  grid_shaped grid_n normal_rois -> grid_shaped grid_n periph_rois ->
  (i < grid_n)%nat -> (j < grid_n)%nat ->
  nth j (nth i (combine_rois normal_rois periph_rois) []) [] =
  roi_select (nth j (nth i normal_rois []) [] ++
              nth j (nth i (rsperiph_rois normal_rois periph_rois) []) []).
Proof.
  intros Hn Hp Hi Hj. unfold combine_rois.
  pose proof (rsperiph_rois_shape grid_n _ _ Hn Hp) as [Ls Rs].
  destruct Hn as [Ln Rn].
  rewrite (nth_map2 _ _ _ i [] []) by (rewrite ?Ln, ?Ls; exact Hi).
  rewrite (nth_map2 _ _ _ j [] []) by (rewrite ?Rn, ?Rs; assumption).
  reflexivity.
Qed.





(** ** argmax and argmin *)

Lemma argmax_from_spec (l pre : list Q) (best_i : nat) (best : Q) :
  (best_i < length pre)%nat -> nth best_i pre 0 = best ->
  (forall k, (k < length pre)%nat -> nth k pre 0 <= best) ->
  let r := argmax_from best_i best (length pre) l in
  (r < length (pre ++ l))%nat /\
  forall k, (k < length (pre ++ l))%nat -> nth k (pre ++ l) 0 <= nth r (pre ++ l) 0.
Proof.
  revert pre best_i best. induction l as [|x t IH]; intros pre bi bv Hbi Hbv Hmax; simpl.
  - rewrite app_nil_r. split; [exact Hbi|]. intros k Hk. rewrite Hbv. apply Hmax, Hk.
  - assert (Hlen : length (pre ++ [x]) = S (length pre))
      by (rewrite length_app; simpl; lia).
    assert (Happ : pre ++ x :: t = (pre ++ [x]) ++ t)
      by (rewrite <- app_assoc; reflexivity).
    rewrite Happ. rewrite <- Hlen.
    assert (Hnew : forall k, (k < length (pre ++ [x]))%nat ->
               nth k (pre ++ [x]) 0 <= Qmax x bv).
    { intros k Hk. destruct (Nat.lt_ge_cases k (length pre)) as [Hlt | Hge].
      - rewrite app_nth1 by exact Hlt.
        apply Qle_trans with bv; [apply Hmax, Hlt | apply Q.le_max_r].
      - assert (k = length pre) by lia. subst k.
        rewrite app_nth2, Nat.sub_diag by lia. simpl. apply Q.le_max_l. }
    cmp_cases x bv.
    + apply IH.
      * lia.
      * rewrite app_nth2, Nat.sub_diag by lia. reflexivity.
      * intros k Hk. specialize (Hnew k Hk). rewrite Q.max_l in Hnew by lra. exact Hnew.
    + apply IH.
      * lia.
      * rewrite app_nth1 by exact Hbi. exact Hbv.
      * intros k Hk. specialize (Hnew k Hk). rewrite Q.max_r in Hnew by lra. exact Hnew.
Qed.

Lemma argmax_spec (l : list Q) :
  l <> [] ->
  (argmax l < length l)%nat /\
  forall k, (k < length l)%nat -> nth k l 0 <= nth (argmax l) l 0.
Proof.
  destruct l as [|x t]; [congruence | intros _].
  apply (argmax_from_spec t [x] 0%nat x); simpl.
  - lia.
  - reflexivity.
  - intros k Hk. assert (k = 0%nat) by lia. subst k. simpl. lra.
Qed.

Lemma argmin_from_spec (l pre : list Q) (best_i : nat) (best : Q) :
  (best_i < length pre)%nat -> nth best_i pre 0 = best ->
  (forall k, (k < length pre)%nat -> best <= nth k pre 0) ->
  let r := argmin_from best_i best (length pre) l in
  (r < length (pre ++ l))%nat /\
  forall k, (k < length (pre ++ l))%nat -> nth r (pre ++ l) 0 <= nth k (pre ++ l) 0.
Proof.
  revert pre best_i best. induction l as [|x t IH]; intros pre bi bv Hbi Hbv Hmin; simpl.
  - rewrite app_nil_r. split; [exact Hbi|]. intros k Hk. rewrite Hbv. apply Hmin, Hk.
  - assert (Hlen : length (pre ++ [x]) = S (length pre))
      by (rewrite length_app; simpl; lia).
    assert (Happ : pre ++ x :: t = (pre ++ [x]) ++ t)
      by (rewrite <- app_assoc; reflexivity).
    rewrite Happ. rewrite <- Hlen.
    assert (Hnew : forall k, (k < length (pre ++ [x]))%nat ->
               Qmin x bv <= nth k (pre ++ [x]) 0).
    { intros k Hk. destruct (Nat.lt_ge_cases k (length pre)) as [Hlt | Hge].
      - rewrite app_nth1 by exact Hlt.
        apply Qle_trans with bv; [apply Q.le_min_r | apply Hmin, Hlt].
      - assert (k = length pre) by lia. subst k.
        rewrite app_nth2, Nat.sub_diag by lia. simpl. apply Q.le_min_l. }
    destruct (Qltb x bv) eqn:E;
      [apply Qltb_true in E | apply Qltb_false in E].
    + apply IH.
      * lia.
      * rewrite app_nth2, Nat.sub_diag by lia. reflexivity.
      * intros k Hk. specialize (Hnew k Hk). rewrite Q.min_l in Hnew by lra. exact Hnew.
    + apply IH.
      * lia.
      * rewrite app_nth1 by exact Hbi. exact Hbv.
      * intros k Hk. specialize (Hnew k Hk). rewrite Q.min_r in Hnew by lra. exact Hnew.
Qed.

Lemma argmin_spec (l : list Q) :
  l <> [] ->
  (argmin l < length l)%nat /\
  forall k, (k < length l)%nat -> nth (argmin l) l 0 <= nth k l 0.
Proof.
  destruct l as [|x t]; [congruence | intros _].
  apply (argmin_from_spec t [x] 0%nat x); simpl.
  - lia.
  - reflexivity.
  - intros k Hk. assert (k = 0%nat) by lia. subst k. simpl. lra.
Qed.


(** ** The containment mask across rounds *)

Lemma nth_map2_andb (l m : list bool) (k : nat) :
  nth k (map2 andb l m) false = nth k l false && nth k m false.
Proof.
  revert m k. induction l as [|a l IH]; intros [|b m] [|k]; simpl;
    rewrite ?andb_false_r; auto.
Qed.

Lemma nth_zero_mask (index rois_n k : nat) :
  nth k (map negb (one_hot index rois_n)) false = (k <? rois_n)%nat && negb (k =? index)%nat.
Proof.
  unfold one_hot. destruct (Nat.ltb_spec k rois_n) as [Hlt | Hge]; simpl.
  - rewrite (nth_map_lt _ _ _ false) by (rewrite length_map, length_seq; exact Hlt).
    rewrite nth_map_seq by exact Hlt. reflexivity.
  - apply nth_overflow. rewrite !length_map, length_seq. exact Hge.
Qed.

Lemma nth_next_mask (has_center : list bool) (index rois_n k : nat) :
  nth k (next_mask has_center index rois_n) false =
  nth k has_center false && ((k <? rois_n)%nat && negb (k =? index)%nat).
Proof.
  unfold next_mask. rewrite nth_map2_andb, nth_zero_mask. reflexivity.
Qed.

Lemma next_mask_winner (has_center : list bool) (index rois_n : nat) :
  nth index (next_mask has_center index rois_n) false = false.
Proof.
  rewrite nth_next_mask, Nat.eqb_refl. simpl. rewrite !andb_false_r. reflexivity.
Qed.

Lemma next_mask_le (has_center : list bool) (index rois_n k : nat) :
  nth k (next_mask has_center index rois_n) false = true -> nth k has_center false = true.
Proof.
  rewrite nth_next_mask. intro H. apply andb_true_iff in H. tauto.
Qed.

Lemma next_mask_length (has_center : list bool) (index rois_n : nat) :
  length has_center = rois_n -> length (next_mask has_center index rois_n) = rois_n.
Proof.
  intro H. unfold next_mask, one_hot.
  rewrite map2_length, !length_map, length_seq, H. lia.
Qed.

Section Trace.
Variable cmp : comparator.
Variable g : Q * Q.
Variable rois : list croi.
Variable rois_n : nat.

Abbreviation trace := (cell_trace cmp g rois rois_n).

(** every round's index is the one computed from that round's mask *)
Lemma trace_winner (n a : nat) (hc : list bool) :
  (a < n)%nat ->
  fst (nth a (trace n hc) (O, [])) =
  largest_indices cmp g rois (snd (nth a (trace n hc) (O, []))).
Proof.
  revert a hc. induction n as [|n IH]; intros a hc Ha; [lia|].
  destruct a as [|a]; simpl; [reflexivity|]. apply IH. lia.
Qed.

(** masks only lose entries *)
Lemma trace_mask_le (n a : nat) (hc : list bool) (k : nat) :
  (a < n)%nat ->
  nth k (snd (nth a (trace n hc) (O, []))) false = true -> nth k hc false = true.
Proof.
  revert a hc. induction n as [|n IH]; intros a hc Ha; [lia|].
  destruct a as [|a]; simpl; [auto|].
  intro H. apply IH in H; [|lia]. eapply next_mask_le. exact H.
Qed.

Lemma trace_mask_length (n a : nat) (hc : list bool) :
  (a < n)%nat -> length hc = rois_n ->
  length (snd (nth a (trace n hc) (O, []))) = rois_n.
Proof.
  revert a hc. induction n as [|n IH]; intros a hc Ha Hl; [lia|].
  destruct a as [|a]; simpl; [exact Hl|].
  apply IH; [lia | apply next_mask_length; exact Hl].
Qed.

(** a winner is gone from the mask of every later round, and later masks
    are contained in earlier ones *)
Lemma trace_later (n a b : nat) (hc : list bool) :
  (a < b)%nat -> (b < n)%nat ->
  nth (fst (nth a (trace n hc) (O, []))) (snd (nth b (trace n hc) (O, []))) false = false /\
  forall k, nth k (snd (nth b (trace n hc) (O, []))) false = true ->
            nth k (snd (nth a (trace n hc) (O, []))) false = true.
Proof.
  revert a b hc. induction n as [|n IH]; intros a b hc Hab Hb; [lia|].
  destruct b as [|b]; [lia|]. destruct a as [|a]; simpl.
  - split.
    + destruct (nth (largest_indices cmp g rois hc)
                    (snd (nth b (trace n (next_mask hc (largest_indices cmp g rois hc)
                                                    rois_n)) (O, []))) false) eqn:E;
        [|reflexivity].
      apply trace_mask_le in E; [|lia].
      rewrite next_mask_winner in E. discriminate E.
    + intros k H. apply trace_mask_le in H; [|lia]. eapply next_mask_le. exact H.
  - apply IH; lia.
Qed.
End Trace.

Lemma n_largest_rois_in_cell_trace (tile : box) (rois : list box) (rois_n grid_n n : nat)
    (cmp : comparator) (expand : Q) (i j : nat) :
  (i < grid_n)%nat -> (j < grid_n)%nat ->
  nth j (nth i (n_largest_rois_in_cell tile rois rois_n grid_n n cmp expand) []) [] =
  map (round_output (cxyw_rois rois))
      (selection_trace tile rois rois_n grid_n n cmp expand i j).
Proof.
  intros Hi Hj. rewrite n_largest_rois_in_cell_nth by assumption. reflexivity.
Qed.

Lemma n_largest_rois_in_cell_slot (tile : box) (rois : list box) (rois_n grid_n n : nat)
    (cmp : comparator) (expand : Q) (i j a : nat) :
  (i < grid_n)%nat -> (j < grid_n)%nat -> (a < n)%nat ->
  nth a (nth j (nth i (n_largest_rois_in_cell tile rois rois_n grid_n n cmp expand) []) [])
      zero_roi =
  round_output (cxyw_rois rois)
               (nth a (selection_trace tile rois rois_n grid_n n cmp expand i j) (O, [])).
Proof.
  intros Hi Hj Ha. rewrite n_largest_rois_in_cell_trace by assumption.
  apply nth_map_lt. unfold selection_trace. rewrite cell_trace_length. exact Ha.
Qed.

(** ** Who wins a round *)

Lemma nth_true_lt (l : list bool) (k : nat) : nth k l false = true -> (k < length l)%nat.
Proof.
  intro H. destruct (Nat.lt_ge_cases k (length l)) as [Hlt | Hge]; [exact Hlt|].
  rewrite nth_overflow in H by exact Hge. discriminate H.
Qed.

Lemma map2_nonempty {A B C : Type} (f : A -> B -> C) (l : list A) (m : list B) (k : nat) :
  (k < length l)%nat -> (k < length m)%nat -> map2 f l m <> [].
Proof.
  intros Hl Hm E. apply (f_equal (@length C)) in E.
  rewrite map2_length in E. simpl in E. lia.
Qed.

(** [closest_to_center]: a contained ROI closer than the sentinel distance
    keeps every masked-out entry from winning *)
Lemma closest_to_center_round (g : Q * Q) (rois : list croi) (has_center : list bool)
    (k : nat) :
  (k < length rois)%nat -> nth k has_center false = true ->
  d_from_cell_center g (nth k rois zero_roi) < 1000 ->
  let li := largest_indices closest_to_center g rois has_center in
  nth li has_center false = true /\ (li < length rois)%nat /\
  d_from_cell_center g (nth li rois zero_roi) <= d_from_cell_center g (nth k rois zero_roi).
Proof.
  intros Hk Hin Hd li. pose proof (nth_true_lt _ _ Hin) as Hk'.
  set (f := fun (b : bool) r => if b then d_from_cell_center g r else 1000 * 1).
  assert (Hne : map2 f has_center rois <> []) by (apply (map2_nonempty f _ _ k); assumption).
  destruct (argmin_spec _ Hne) as [Hlt Hmin].
  change (argmin (map2 f has_center rois)) with li in Hlt, Hmin.
  rewrite map2_length in Hlt.
  specialize (Hmin k). rewrite map2_length in Hmin.
  assert (Hmin' : nth li (map2 f has_center rois) 0 <= nth k (map2 f has_center rois) 0)
    by (apply Hmin; lia).
  rewrite (nth_map2 f _ _ li false zero_roi), (nth_map2 f _ _ k false zero_roi) in Hmin'
    by lia.
  unfold f in Hmin'. rewrite Hin in Hmin'.
  destruct (nth li has_center false) eqn:E.
  - split; [reflexivity|]. split; [lia | exact Hmin'].
  - exfalso. lra.
Qed.







(** ** Order of the winners under [largest_w] *)

Lemma existsb_nth (l : list bool) :
  existsb (fun b => b) l = true -> exists k, nth k l false = true.
Proof.
  induction l as [|b l IH]; simpl; [discriminate|].
  destruct b; simpl.
  - intros _. exists O. reflexivity.
  - intro H. destruct (IH H) as [k Hk]. exists (S k). exact Hk.
Qed.

Lemma existsb_false_nth (l : list bool) (k : nat) :
  existsb (fun b => b) l = false -> nth k l false = false.
Proof.
  intro H. destruct (nth k l false) eqn:E; [|reflexivity].
  assert (Hex : existsb (fun b => b) l = true).
  { apply existsb_exists. exists true. split; [|reflexivity].
    rewrite <- E. apply nth_In. apply nth_true_lt. exact E. }
  congruence.
Qed.

Section LargestW.
Variable g : Q * Q.
Variable rois : list croi.
Hypothesis rois_wide : forall r, In r rois -> 0 < rw r.


Variable rois_n : nat.
Hypothesis rois_n_ok : rois_n = length rois.


End LargestW.







(** * Further properties of the geometry *)

(** X1: the two intervals play the same role: same flag, same length, and the
    same start whenever they intersect *)
Theorem one_d_intersect_symmetric (p1 p2 q1 q2 : Q) :
  fst (fst (one_d_intersect p1 p2 q1 q2)) = fst (fst (one_d_intersect q1 q2 p1 p2)) /\
  snd (one_d_intersect p1 p2 q1 q2) == snd (one_d_intersect q1 q2 p1 p2) /\
  (fst (fst (one_d_intersect p1 p2 q1 q2)) = true ->
   snd (fst (one_d_intersect p1 p2 q1 q2)) == snd (fst (one_d_intersect q1 q2 p1 p2))).
Proof.
  destruct (Qlt_le_dec q1 p2) as [HB | HB]; [destruct (Qlt_le_dec p1 q2) as [HD | HD]|].
  - destruct (one_d_intersect_overlap p1 p2 q1 q2 HB HD) as (F1 & S1 & W1).
    destruct (one_d_intersect_overlap q1 q2 p1 p2 HD HB) as (F2 & S2 & W2).
    rewrite F1, F2, S1, S2, W1, W2.
    rewrite (Q.max_comm q1 p1), (Q.min_comm q2 p2).
    split; [reflexivity|]. split; [reflexivity|]. intros _. reflexivity.
  - destruct (one_d_intersect_disjoint p1 p2 q1 q2 (or_intror HD)) as (F1 & W1).
    destruct (one_d_intersect_disjoint q1 q2 p1 p2 (or_introl HD)) as (F2 & W2).
    rewrite F1, F2, W1, W2.
    split; [reflexivity|]. split; [reflexivity|]. intro H. discriminate H.
  - destruct (one_d_intersect_disjoint p1 p2 q1 q2 (or_introl HB)) as (F1 & W1).
    destruct (one_d_intersect_disjoint q1 q2 p1 p2 (or_intror HB)) as (F2 & W2).
    rewrite F1, F2, W1, W2.
    split; [reflexivity|]. split; [reflexivity|]. intro H. discriminate H.
Qed.

(** [boxintersect] on one candidate, in terms of the overlap rectangle *)
Lemma boxintersect1_iff (p : box) (m : Q) (r : box) :
  boxintersect1 p m r = true <->
  (bx1 r < bx2 p /\ bx1 p < bx2 r) /\ (by1 r < by2 p /\ by1 p < by2 r) /\
  Qmin ((bx2 r - bx1 r) * (by2 r - by1 r)) ((bx2 p - bx1 p) * (by2 p - by1 p)) * m
    <= (Qmin (bx2 p) (bx2 r) - Qmax (bx1 p) (bx1 r)) *
       (Qmin (by2 p) (by2 r) - Qmax (by1 p) (by1 r)).
Proof.
  unfold boxintersect1.
  pose proof (one_d_intersect_flag (bx1 p) (bx2 p) (bx1 r) (bx2 r)) as Fx.
  pose proof (one_d_intersect_flag (by1 p) (by2 p) (by1 r) (by2 r)) as Fy.
  pose proof (one_d_intersect_overlap (bx1 p) (bx2 p) (bx1 r) (bx2 r)) as Ox.
  pose proof (one_d_intersect_overlap (by1 p) (by2 p) (by1 r) (by2 r)) as Oy.
  destruct (one_d_intersect (bx1 p) (bx2 p) (bx1 r) (bx2 r)) as [[ix sx] iw].
  destruct (one_d_intersect (by1 p) (by2 p) (by1 r) (by2 r)) as [[iy sy] ih].
  simpl in *. rewrite !andb_true_iff, Qgeb_true, Fx, Fy. split.
  - intros [[Hx Hy] Ha]. destruct Hx as [Hx1 Hx2]. destruct Hy as [Hy1 Hy2].
    destruct (Ox Hx1 Hx2) as (_ & _ & Wx). destruct (Oy Hy1 Hy2) as (_ & _ & Wy).
    rewrite Wx, Wy in Ha. tauto.
  - intros ([Hx1 Hx2] & [Hy1 Hy2] & Ha).
    destruct (Ox Hx1 Hx2) as (_ & _ & Wx). destruct (Oy Hy1 Hy2) as (_ & _ & Wy).
    rewrite Wx, Wy. tauto.
Qed.

Lemma bool_eq_iff (a b : bool) : (a = true <-> b = true) -> a = b.
Proof. destruct a, b; intuition congruence. Qed.

(** X2: which rectangle is the primary one does not matter *)
Theorem boxintersect_symmetric (p r : box) (m : Q) :
  boxintersect p [r] m = boxintersect r [p] m.
Proof.
  unfold boxintersect; simpl. f_equal. apply bool_eq_iff.
  rewrite !boxintersect1_iff.
  rewrite (Q.min_comm ((bx2 r - bx1 r) * (by2 r - by1 r))).
  rewrite (Q.min_comm (bx2 p)), (Q.min_comm (by2 p)).
  rewrite (Q.max_comm (bx1 p)), (Q.max_comm (by1 p)).
  tauto.
Qed.



(** X4: rectangles that do not overlap on one axis never intersect, whatever the
    threshold *)
Theorem boxintersect_disjoint (p r : box) (m : Q) :
  bx2 p <= bx1 r \/ bx2 r <= bx1 p \/ by2 p <= by1 r \/ by2 r <= by1 p ->
  boxintersect p [r] m = [false].
Proof.
  intro H. unfold boxintersect; simpl. f_equal.
  destruct (boxintersect1 p m r) eqn:E; [|reflexivity].
  apply boxintersect1_iff in E. exfalso. lra.
Qed.

Lemma boxintersect_disjoint_witness :
  boxintersect (mkBox 0 0 4 4) [mkBox 4 0 8 4] (-1) = [false].
Proof.
  apply (boxintersect_disjoint (mkBox 0 0 4 4) (mkBox 4 0 8 4)); simpl. left. lra.
Defined.





(** * Further properties of the containment masks *)


Lemma has_center1_expand_monotone (cell : Q * Q) (cell_w e e' : Q) (r : croi) :
  0 <= cell_w -> e <= e' ->
  has_center1 cell cell_w e r = true -> has_center1 cell cell_w e' r = true.
Proof.
  intros Hw He. unfold has_center1.
  rewrite !andb_true_iff, !Qgeb_true, !Qltb_true.
  assert (Hd : 0 <= (e' - e) * cell_w) by (apply Qmult_le_0_compat; lra).
  intros [[A B] [C D]]. repeat split; lra.
Qed.

Lemma tile_cell_w_nonneg (tile : box) (grid_n : nat) :
  bx1 tile <= bx2 tile -> 0 <= tile_cell_w tile grid_n.
Proof.
  intro H. unfold tile_cell_w, Qdiv. apply Qmult_le_0_compat; [lra|].
  apply Qinv_le_0_compat, Qnat_nonneg.
Qed.

Section Masks.
Variable tile : box.
Variable grid_n : nat.
Variable rois : list croi.
Variables i j k : nat.
Hypothesis i_in : (i < grid_n)%nat.
Hypothesis j_in : (j < grid_n)%nat.
Hypothesis k_in : (k < length rois)%nat.

Lemma center_in_grid_cell_entry (expand : Q) :
  nth k (nth j (nth i (center_in_grid_cell (fst (gen_grid_for_tile tile grid_n)) grid_n
                                           (snd (gen_grid_for_tile tile grid_n))
                                           rois expand) []) []) false =
  has_center1 (cell_origin tile grid_n i j) (tile_cell_w tile grid_n) expand
              (nth k rois zero_roi).
Proof.
  change (snd (gen_grid_for_tile tile grid_n)) with (tile_cell_w tile grid_n).
  rewrite center_in_grid_cell_nth by assumption.
  apply nth_map_lt. exact k_in.
Qed.

Lemma center_in_grid_cell_cell_length (expand : Q) :
  length (nth j (nth i (center_in_grid_cell (fst (gen_grid_for_tile tile grid_n)) grid_n
                                            (snd (gen_grid_for_tile tile grid_n))
                                            rois expand) []) []) = length rois.
Proof.
  change (snd (gen_grid_for_tile tile grid_n)) with (tile_cell_w tile grid_n).
  rewrite center_in_grid_cell_nth by assumption. apply length_map.
Qed.

Lemma center_in_grid_cell_periphery_entry (expand : Q) :
  nth k (nth j (nth i (center_in_grid_cell_periphery
                         (fst (gen_grid_for_tile tile grid_n)) grid_n
                         (snd (gen_grid_for_tile tile grid_n)) rois expand) []) []) false =
  has_center1 (cell_origin tile grid_n i j) (tile_cell_w tile grid_n) expand
              (nth k rois zero_roi) &&
  negb (has_center1 (cell_origin tile grid_n i j) (tile_cell_w tile grid_n) 1
                    (nth k rois zero_roi)).
Proof.
  unfold center_in_grid_cell_periphery.
  change (snd (gen_grid_for_tile tile grid_n)) with (tile_cell_w tile grid_n).
  rewrite (nth_map2 _ _ _ i [] []) by (rewrite center_in_grid_cell_length; exact i_in).
  rewrite (nth_map2 _ _ _ j [] [])
    by (rewrite center_in_grid_cell_row_length; assumption).
  rewrite !center_in_grid_cell_nth by assumption.
  rewrite (nth_map2 _ _ _ k false false) by (rewrite length_map; exact k_in).
  rewrite !(nth_map_lt _ _ _ zero_roi) by exact k_in. reflexivity.
Qed.
End Masks.



(** X8: for expand >= 1 the expanded mask of a cell is the disjoint union of
    the plain mask and the periphery mask. *)
Theorem center_in_grid_cell_periphery_partition (tile : box) (grid_n : nat)
    (rois : list croi) (expand : Q) (i j k : nat) :
  let grid := fst (gen_grid_for_tile tile grid_n) in
  let cell_w := snd (gen_grid_for_tile tile grid_n) in
  let inside := nth k (nth j (nth i (center_in_grid_cell grid grid_n cell_w rois 1) []) [])
                    false in
  let expanded :=
    nth k (nth j (nth i (center_in_grid_cell grid grid_n cell_w rois expand) []) []) false in
  let periphery :=
    nth k (nth j (nth i (center_in_grid_cell_periphery grid grid_n cell_w rois expand) [])
                 []) false in
  bx1 tile <= bx2 tile -> 1 <= expand ->
  (i < grid_n)%nat -> (j < grid_n)%nat -> (k < length rois)%nat ->
  expanded = inside || periphery /\ inside && periphery = false.
Proof.
  intros grid cell_w inside expanded periphery Hw He Hi Hj Hk.
  subst inside expanded periphery grid cell_w.
  rewrite center_in_grid_cell_periphery_entry, !center_in_grid_cell_entry by assumption.
  pose proof (has_center1_expand_monotone (cell_origin tile grid_n i j)
                (tile_cell_w tile grid_n) 1 expand (nth k rois zero_roi)
                (tile_cell_w_nonneg tile grid_n Hw) He) as Hmono.
  destruct (has_center1 _ _ 1 _); destruct (has_center1 _ _ expand _); simpl; auto.
Qed.

Lemma center_in_grid_cell_periphery_partition_witness :
  let tile := mkBox 0 0 10 10 in
  let grid := fst (gen_grid_for_tile tile 2) in
  let cell_w := snd (gen_grid_for_tile tile 2) in
  let rois := [mkRoi 4 2 1] in
  nth 0 (nth 1 (nth 0 (center_in_grid_cell grid 2 cell_w rois (13 # 10)) []) []) false =
    nth 0 (nth 1 (nth 0 (center_in_grid_cell grid 2 cell_w rois 1) []) []) false ||
    nth 0 (nth 1 (nth 0 (center_in_grid_cell_periphery grid 2 cell_w rois (13 # 10)) []) [])
        false.
Proof.
  intros tile grid cell_w rois.
  refine (proj1 (center_in_grid_cell_periphery_partition tile 2 rois (13 # 10) 0 1 0
                   _ _ _ _ _)); simpl; try lia; lra.
Defined.

(** X9: with expand <= 1 the periphery mask is empty, as the comment on
    [center_in_grid_cell_periphery] says. *)
Theorem center_in_grid_cell_periphery_needs_expand (tile : box) (grid_n : nat)
    (rois : list croi) (expand : Q) (i j k : nat) :
  bx1 tile <= bx2 tile -> expand <= 1 ->
  (i < grid_n)%nat -> (j < grid_n)%nat -> (k < length rois)%nat ->
  nth k (nth j (nth i (center_in_grid_cell_periphery
                         (fst (gen_grid_for_tile tile grid_n)) grid_n
                         (snd (gen_grid_for_tile tile grid_n)) rois expand) []) []) false
  = false.
Proof.
  intros Hw He Hi Hj Hk.
  rewrite center_in_grid_cell_periphery_entry by assumption.
  pose proof (has_center1_expand_monotone (cell_origin tile grid_n i j)
                (tile_cell_w tile grid_n) expand 1 (nth k rois zero_roi)
                (tile_cell_w_nonneg tile grid_n Hw) He) as Hmono.
  destruct (has_center1 _ _ expand _); [|reflexivity].
  rewrite Hmono by reflexivity. reflexivity.
Qed.

Lemma center_in_grid_cell_periphery_needs_expand_witness :
  nth 0 (nth 0 (nth 0 (center_in_grid_cell_periphery
                         (fst (gen_grid_for_tile (mkBox 0 0 10 10) 2)) 2
                         (snd (gen_grid_for_tile (mkBox 0 0 10 10) 2))
                         [mkRoi 2 2 1] 1) []) []) false = false.
Proof.
  apply (center_in_grid_cell_periphery_needs_expand (mkBox 0 0 10 10) 2 [mkRoi 2 2 1] 1 0 0 0);
    simpl; try lia; lra.
Defined.

(** * Further properties of the selection *)

Lemma contained_count_zero (hc : list bool) :
  contained_count hc = O <-> existsb (fun b => b) hc = false.
Proof.
  unfold contained_count. induction hc as [|b hc IH]; simpl; [tauto|].
  destruct b; simpl; [split; discriminate | exact IH].
Qed.

Lemma contained_count_pos (hc : list bool) :
  (0 < contained_count hc)%nat -> exists k, nth k hc false = true.
Proof.
  intro H. apply existsb_nth.
  destruct (existsb (fun b => b) hc) eqn:E; [reflexivity|].
  apply contained_count_zero in E. lia.
Qed.

Lemma contained_count_remove (l l' : list bool) (li : nat) :
  length l = length l' ->
  nth li l false = true -> nth li l' false = false ->
  (forall k, k <> li -> nth k l' false = nth k l false) ->
  contained_count l = S (contained_count l').
Proof.
  unfold contained_count.
  revert l' li. induction l as [|b l IH]; intros [|b' l'] li Hlen Hl Hl' Hother;
    simpl in Hlen; try discriminate Hlen.
  - destruct li; discriminate Hl.
  - destruct li as [|li]; simpl in Hl, Hl'.
    + subst b b'. simpl.
      assert (E : l = l').
      { apply (nth_ext _ _ false false); [lia|].
        intros k _. symmetry. apply (Hother (S k)). lia. }
      rewrite E. reflexivity.
    + assert (Hb : b' = b) by (apply (Hother O); lia).
      subst b'. simpl.
      assert (Ht : length (filter (fun b0 : bool => b0) l) =
                   S (length (filter (fun b0 : bool => b0) l'))).
      { apply (IH l' li); [lia | exact Hl | exact Hl' |].
        intros k Hk. apply (Hother (S k)). lia. }
      destruct b; simpl; rewrite Ht; reflexivity.
Qed.

Lemma next_mask_count (hc : list bool) (li rois_n : nat) :
  length hc = rois_n -> nth li hc false = true ->
  contained_count hc = S (contained_count (next_mask hc li rois_n)).
Proof.
  intros Hl Hin. apply (contained_count_remove _ _ li).
  - rewrite next_mask_length by exact Hl. exact Hl.
  - exact Hin.
  - apply next_mask_winner.
  - intros k Hk. rewrite nth_next_mask.
    destruct (Nat.ltb_spec k rois_n) as [Hlt | Hge].
    + apply Nat.eqb_neq in Hk. rewrite Hk. simpl. rewrite andb_true_r. reflexivity.
    + rewrite (nth_overflow hc) by lia. reflexivity.
Qed.

Lemma next_mask_empty (hc : list bool) (li rois_n : nat) :
  existsb (fun b => b) hc = false ->
  existsb (fun b => b) (next_mask hc li rois_n) = false.
Proof.
  intro H. destruct (existsb (fun b => b) (next_mask hc li rois_n)) eqn:E; [|reflexivity].
  destruct (existsb_nth _ E) as [k Hk]. apply next_mask_le in Hk.
  rewrite (existsb_false_nth _ k H) in Hk. discriminate Hk.
Qed.

(** [argmax] over masked positive values picks a contained entry of maximal
    value *)
Lemma masked_argmax_round (v : croi -> Q) (rois : list croi) (hc : list bool) (k : nat) :
  (forall r, In r rois -> 0 < v r) ->
  (k < length rois)%nat -> nth k hc false = true ->
  let li := argmax (map2 (fun b r => cast b * v r) hc rois) in
  nth li hc false = true /\ (li < length rois)%nat /\
  forall k', (k' < length rois)%nat -> nth k' hc false = true ->
             v (nth k' rois zero_roi) <= v (nth li rois zero_roi).
Proof.
  intros Hpos Hk Hin li. pose proof (nth_true_lt _ _ Hin) as Hk'.
  set (f := fun b r => cast b * v r).
  assert (Hne : map2 f hc rois <> []) by (apply (map2_nonempty f _ _ k); assumption).
  destruct (argmax_spec _ Hne) as [Hlt Hmax].
  change (argmax (map2 f hc rois)) with li in Hlt, Hmax.
  rewrite map2_length in Hlt.
  assert (Hsc : forall k', (k' < length rois)%nat -> nth k' hc false = true ->
            v (nth k' rois zero_roi) <= nth li (map2 f hc rois) 0).
  { intros k' Hk1 Hin1. pose proof (nth_true_lt _ _ Hin1) as Hk2.
    specialize (Hmax k'). rewrite map2_length in Hmax.
    assert (Hm : nth k' (map2 f hc rois) 0 <= nth li (map2 f hc rois) 0)
      by (apply Hmax; lia).
    rewrite (nth_map2 f _ _ k' false zero_roi) in Hm by lia.
    unfold f at 1 in Hm. rewrite Hin1 in Hm. simpl in Hm. lra. }
  assert (Hp : 0 < nth li (map2 f hc rois) 0).
  { apply Qlt_le_trans with (v (nth k rois zero_roi)).
    - apply Hpos, nth_In, Hk.
    - apply Hsc; assumption. }
  rewrite (nth_map2 f _ _ li false zero_roi) in Hp, Hsc by lia.
  unfold f in Hp, Hsc.
  destruct (nth li hc false) eqn:E; simpl in Hp, Hsc.
  - split; [reflexivity|]. split; [lia|].
    intros k' Hk1 Hin1. specialize (Hsc k' Hk1 Hin1). lra.
  - exfalso. lra.
Qed.

(** one round under any comparator: if the candidates beat the sentinel, the
    winner is a contained ROI of best rank among the contained ones *)
Lemma best_contained_round (cmp : comparator) (g : Q * Q) (rois : list croi)
    (hc : list bool) (k : nat) :
  beats_sentinel cmp g rois ->
  (k < length rois)%nat -> nth k hc false = true ->
  let li := largest_indices cmp g rois hc in
  nth li hc false = true /\ (li < length rois)%nat /\
  forall k', (k' < length rois)%nat -> nth k' hc false = true ->
             rank cmp g (nth k' rois zero_roi) <= rank cmp g (nth li rois zero_roi).
Proof.
  intros Hb Hk Hin. destruct cmp; simpl in Hb.
  - exact (masked_argmax_round rw rois hc k Hb Hk Hin).
  - exact (masked_argmax_round (d_from_cell_center g) rois hc k Hb Hk Hin).
  - intro li.
    assert (Hd : d_from_cell_center g (nth k rois zero_roi) < 1000)
      by (apply Hb, nth_In, Hk).
    destruct (closest_to_center_round g rois hc k Hk Hin Hd) as (Hc & Hlt & _).
    fold li in Hc, Hlt.
    split; [exact Hc|]. split; [exact Hlt|].
    intros k' Hk1 Hin1.
    assert (Hd' : d_from_cell_center g (nth k' rois zero_roi) < 1000)
      by (apply Hb, nth_In, Hk1).
    destruct (closest_to_center_round g rois hc k' Hk1 Hin1 Hd') as (_ & _ & Hle).
    fold li in Hle. unfold rank. lra.
Qed.

Section Rounds.
Variable cmp : comparator.
Variable g : Q * Q.
Variable rois : list croi.
Variable rois_n : nat.
Hypothesis rois_n_ok : rois_n = length rois.

(** an ROI of the mask that no earlier round picked is still in the mask *)
Lemma trace_mask_keeps (n a : nat) (hc : list bool) (k : nat) :
  (a < n)%nat -> (k < rois_n)%nat -> nth k hc false = true ->
  (forall b, (b < a)%nat -> fst (nth b (cell_trace cmp g rois rois_n n hc) (O, [])) <> k) ->
  nth k (snd (nth a (cell_trace cmp g rois rois_n n hc) (O, []))) false = true.
Proof.
  revert a hc. induction n as [|n IH]; intros a hc Ha Hk Hin Hfresh; [lia|].
  destruct a as [|a]; simpl; [exact Hin|].
  apply IH.
  - lia.
  - exact Hk.
  - rewrite nth_next_mask, Hin.
    assert (Hlt : (k <? rois_n)%nat = true) by (apply Nat.ltb_lt; exact Hk).
    rewrite Hlt. simpl.
    destruct (Nat.eqb_spec k (largest_indices cmp g rois hc)) as [E | E]; [|reflexivity].
    exfalso. apply (Hfresh O); [lia|]. simpl. symmetry. exact E.
  - intros b Hb. apply (Hfresh (S b)). lia.
Qed.

Hypothesis candidates_beat_sentinel : beats_sentinel cmp g rois.

(** the first rounds, as many as the mask holds ROIs, pick contained ROIs;
    from then on the mask is empty *)
Lemma rounds_filled (n a : nat) (hc : list bool) :
  length hc = rois_n -> (a < n)%nat ->
  let t := nth a (cell_trace cmp g rois rois_n n hc) (O, []) in
  ((a < contained_count hc)%nat ->
   nth (fst t) (snd t) false = true /\ (fst t < length rois)%nat) /\
  ((contained_count hc <= a)%nat -> existsb (fun b => b) (snd t) = false).
Proof.
  revert a hc. induction n as [|n IH]; intros a hc Hl Ha; [lia|].
  assert (Hwin : (0 < contained_count hc)%nat ->
            nth (largest_indices cmp g rois hc) hc false = true /\
            (largest_indices cmp g rois hc < length rois)%nat).
  { intro Hc. destruct (contained_count_pos _ Hc) as [k Hk].
    assert (Hk' : (k < length rois)%nat) by (apply nth_true_lt in Hk; lia).
    destruct (best_contained_round cmp g rois hc k candidates_beat_sentinel Hk' Hk)
      as (A & B & _).
    split; assumption. }
  destruct a as [|a]; simpl.
  - split; [exact Hwin|].
    intro Hc. apply contained_count_zero. lia.
  - assert (Hl' : length (next_mask hc (largest_indices cmp g rois hc) rois_n) = rois_n)
      by (apply next_mask_length; exact Hl).
    assert (Ha' : (a < n)%nat) by lia.
    destruct (IH a _ Hl' Ha') as [IHfill IHempty].
    destruct (Nat.eq_dec (contained_count hc) 0) as [Hz | Hnz].
    + split; [lia|]. intros _. apply IHempty.
      assert (He : existsb (fun b => b) hc = false) by (apply contained_count_zero; exact Hz).
      pose proof (next_mask_empty hc (largest_indices cmp g rois hc) rois_n He) as He'.
      apply contained_count_zero in He'. lia.
    + destruct Hwin as [Hin _]; [lia|].
      pose proof (next_mask_count hc _ rois_n Hl Hin) as Hcnt.
      split.
      * intro Hc. apply IHfill. lia.
      * intro Hc. apply IHempty. lia.
Qed.

(** whatever is still in the mask ranks no better than the round's winner *)
Lemma round_winner_best (n a : nat) (hc : list bool) (k : nat) :
  (a < n)%nat -> (k < length rois)%nat ->
  let t := nth a (cell_trace cmp g rois rois_n n hc) (O, []) in
  nth k (snd t) false = true ->
  nth (fst t) (snd t) false = true /\ (fst t < length rois)%nat /\
  rank cmp g (nth k rois zero_roi) <= rank cmp g (nth (fst t) rois zero_roi).
Proof.
  intros Ha Hk t Hin. unfold t in *.
  rewrite trace_winner by exact Ha.
  destruct (best_contained_round cmp g rois _ k candidates_beat_sentinel Hk Hin)
    as (A & B & C).
  split; [exact A|]. split; [exact B|]. apply C; assumption.
Qed.
End Rounds.

Lemma cell_rounds_empty (cmp : comparator) (g : Q * Q) (rois : list croi) (rois_n n : nat)
    (hc : list bool) :
  existsb (fun b => b) hc = false ->
  cell_rounds cmp g rois rois_n n hc = repeat zero_roi n.
Proof.
  revert hc. induction n as [|n IH]; intros hc He; [reflexivity|].
  unfold cell_rounds in *. simpl. unfold round_output at 1. simpl. rewrite He.
  f_equal. apply IH. apply next_mask_empty. exact He.
Qed.

Lemma selection_mask (tile : box) (rois : list box) (grid_n : nat) (expand : Q) (i j : nat) :
  (i < grid_n)%nat -> (j < grid_n)%nat ->
  nth j (nth i (center_in_grid_cell (fst (gen_grid_for_tile tile grid_n)) grid_n
                                    (snd (gen_grid_for_tile tile grid_n))
                                    (cxyw_rois rois) expand) []) [] =
  map (has_center1 (cell_origin tile grid_n i j) (tile_cell_w tile grid_n) expand)
      (cxyw_rois rois).
Proof.
  intros Hi Hj.
  change (snd (gen_grid_for_tile tile grid_n)) with (tile_cell_w tile grid_n).
  apply center_in_grid_cell_nth; assumption.
Qed.

Lemma empty_cell_rounds (tile : box) (rois : list box) (rois_n grid_n n : nat)
    (cmp : comparator) (expand : Q) (i j : nat) :
  (i < grid_n)%nat -> (j < grid_n)%nat ->
  (forall k, nth k (nth j (nth i (center_in_grid_cell
                                    (fst (gen_grid_for_tile tile grid_n)) grid_n
                                    (snd (gen_grid_for_tile tile grid_n))
                                    (cxyw_rois rois) expand) []) []) false = false) ->
  nth j (nth i (n_largest_rois_in_cell tile rois rois_n grid_n n cmp expand) []) [] =
  repeat zero_roi n.
Proof.
  intros Hi Hj Hnone.
  rewrite selection_mask in Hnone by assumption.
  rewrite n_largest_rois_in_cell_nth by assumption.
  apply cell_rounds_empty.
  destruct (existsb (fun b => b) _) eqn:E; [|reflexivity].
  destruct (existsb_nth _ E) as [k Hk]. rewrite Hnone in Hk. discriminate Hk.
Qed.

(** X10: a cell in which no candidate is centred gets n zero ROIs, under every
    comparator. *)
Theorem n_largest_rois_in_cell_empty_cell (tile : box) (rois : list box)
    (rois_n grid_n n : nat) (cmp : comparator) (expand : Q) (i j : nat) :
  let has_center :=
    center_in_grid_cell (fst (gen_grid_for_tile tile grid_n)) grid_n
                        (snd (gen_grid_for_tile tile grid_n)) (cxyw_rois rois) expand in
  (i < grid_n)%nat -> (j < grid_n)%nat ->
  (forall k, nth k (nth j (nth i has_center []) []) false = false) ->
  nth j (nth i (n_largest_rois_in_cell tile rois rois_n grid_n n cmp expand) []) [] =
  repeat zero_roi n.
Proof.
  intros has_center Hi Hj Hnone. subst has_center.
  apply empty_cell_rounds; assumption.
Qed.

Lemma n_largest_rois_in_cell_empty_cell_witness :
  nth 1 (nth 1 (n_largest_rois_in_cell (mkBox 0 0 10 10) [mkBox 0 0 2 2; mkBox 1 1 4 4]
                                       2 2 3 closest_to_center 1) []) [] =
  repeat zero_roi 3.
Proof.
  apply (n_largest_rois_in_cell_empty_cell (mkBox 0 0 10 10) [mkBox 0 0 2 2; mkBox 1 1 4 4]
           2 2 3 closest_to_center 1 1 1); try lia.
  intros [|[|k]]; vm_compute; try reflexivity. destruct k; reflexivity.
Defined.


Section TopN.
Variable tile : box.
Variable rois : list box.
Variables rois_n grid_n n : nat.
Variable cmp : comparator.
Variable expand : Q.
Variables i j : nat.
Hypothesis rois_n_ok : rois_n = length rois.
Hypothesis i_in : (i < grid_n)%nat.
Hypothesis j_in : (j < grid_n)%nat.
Hypothesis candidates_beat_sentinel :
  beats_sentinel cmp (grid_center (cell_origin tile grid_n i j) (tile_cell_w tile grid_n))
                 (cxyw_rois rois).

Let g := grid_center (cell_origin tile grid_n i j) (tile_cell_w tile grid_n).
Let mask :=
  nth j (nth i (center_in_grid_cell (fst (gen_grid_for_tile tile grid_n)) grid_n
                                    (snd (gen_grid_for_tile tile grid_n))
                                    (cxyw_rois rois) expand) []) [].
Let cell := nth j (nth i (n_largest_rois_in_cell tile rois rois_n grid_n n cmp expand) []) [].
Let trace := selection_trace tile rois rois_n grid_n n cmp expand i j.

Lemma top_n_mask_length : length mask = rois_n.
Proof.
  unfold mask. rewrite selection_mask by assumption.
  unfold cxyw_rois. rewrite !length_map. symmetry. exact rois_n_ok.
Qed.

Lemma top_n_rois_n : rois_n = length (cxyw_rois rois).
Proof. unfold cxyw_rois. rewrite length_map. exact rois_n_ok. Qed.

Lemma top_n_trace_unfold :
  trace = cell_trace cmp g (cxyw_rois rois) rois_n n mask.
Proof.
  unfold trace, selection_trace, mask. rewrite selection_mask by assumption. reflexivity.
Qed.

Lemma top_n_slots_filled_aux (a : nat) :
  (a < n)%nat ->
  ((a < contained_count mask)%nat ->
     (fst (nth a trace (O, [])) < length rois)%nat /\
     nth (fst (nth a trace (O, []))) mask false = true /\
     nth a cell zero_roi = nth (fst (nth a trace (O, []))) (cxyw_rois rois) zero_roi) /\
  ((contained_count mask <= a)%nat -> nth a cell zero_roi = zero_roi).
Proof.
  intro Ha.
  assert (Hslot : nth a cell zero_roi = round_output (cxyw_rois rois) (nth a trace (O, [])))
    by (apply n_largest_rois_in_cell_slot; assumption).
  rewrite Hslot. rewrite top_n_trace_unfold.
  destruct (rounds_filled cmp g (cxyw_rois rois) rois_n top_n_rois_n
              candidates_beat_sentinel n a mask top_n_mask_length Ha) as [Hfill Hempty].
  split.
  - intro Hc. destruct (Hfill Hc) as [Hin Hlt].
    split; [unfold cxyw_rois in Hlt; rewrite length_map in Hlt; exact Hlt|].
    split.
    + eapply trace_mask_le; [exact Ha | exact Hin].
    + unfold round_output.
      assert (Hany : existsb (fun b => b)
                       (snd (nth a (cell_trace cmp g (cxyw_rois rois) rois_n n mask) (O, [])))
                     = true).
      { apply existsb_exists. exists true. split; [|reflexivity].
        rewrite <- Hin. apply nth_In. apply nth_true_lt. exact Hin. }
      rewrite Hany. reflexivity.
  - intro Hc. unfold round_output. rewrite (Hempty Hc). reflexivity.
Qed.

Lemma top_n_best_first_aux (a k : nat) :
  (a < n)%nat -> (k < length rois)%nat -> nth k mask false = true ->
  (forall b, (b < a)%nat -> fst (nth b trace (O, [])) <> k) ->
  nth (fst (nth a trace (O, []))) mask false = true /\
  nth a cell zero_roi = nth (fst (nth a trace (O, []))) (cxyw_rois rois) zero_roi /\
  rank cmp g (nth k (cxyw_rois rois) zero_roi) <= rank cmp g (nth a cell zero_roi).
Proof.
  intros Ha Hk Hin Hfresh.
  assert (Hslot : nth a cell zero_roi = round_output (cxyw_rois rois) (nth a trace (O, [])))
    by (apply n_largest_rois_in_cell_slot; assumption).
  assert (Hk' : (k < length (cxyw_rois rois))%nat)
    by (unfold cxyw_rois; rewrite length_map; exact Hk).
  assert (Hstill : nth k (snd (nth a trace (O, []))) false = true).
  { rewrite top_n_trace_unfold.
    apply trace_mask_keeps;
      [ exact top_n_rois_n | exact Ha | rewrite rois_n_ok; exact Hk | exact Hin
      | rewrite <- top_n_trace_unfold; exact Hfresh ]. }
  rewrite top_n_trace_unfold in Hstill, Hslot |- *.
  destruct (round_winner_best cmp g (cxyw_rois rois) rois_n candidates_beat_sentinel
              n a mask k Ha Hk' Hstill) as (Hin' & _ & Hbest).
  assert (Hany : existsb (fun b => b)
                   (snd (nth a (cell_trace cmp g (cxyw_rois rois) rois_n n mask) (O, [])))
                 = true).
  { apply existsb_exists. exists true. split; [|reflexivity].
    rewrite <- Hin'. apply nth_In. apply nth_true_lt. exact Hin'. }
  assert (Hout : nth a cell zero_roi =
                 nth (fst (nth a (cell_trace cmp g (cxyw_rois rois) rois_n n mask) (O, [])))
                     (cxyw_rois rois) zero_roi).
  { rewrite Hslot. unfold round_output. rewrite Hany. reflexivity. }
  split; [eapply trace_mask_le; [exact Ha | exact Hin']|].
  split; [exact Hout|]. rewrite Hout. exact Hbest.
Qed.
End TopN.

(** X12: when every candidate beats the sentinel score (positive width under
    largest_w, positive distance under furthest_from_center, distance below
    1000 under closest_to_center), a cell in which c candidates are centred
    gets a candidate centred in it in each of its first min(n, c) slots and
    the zero ROI in all remaining slots. *)
Theorem top_n_slots_filled (tile : box) (rois : list box) (rois_n grid_n n : nat)
    (cmp : comparator) (expand : Q) (i j a : nat) :
  let g := grid_center (cell_origin tile grid_n i j) (tile_cell_w tile grid_n) in
  let mask :=
    nth j (nth i (center_in_grid_cell (fst (gen_grid_for_tile tile grid_n)) grid_n
                                      (snd (gen_grid_for_tile tile grid_n))
                                      (cxyw_rois rois) expand) []) [] in
  let cell :=
    nth j (nth i (n_largest_rois_in_cell tile rois rois_n grid_n n cmp expand) []) [] in
  rois_n = length rois -> (i < grid_n)%nat -> (j < grid_n)%nat -> (a < n)%nat ->
  beats_sentinel cmp g (cxyw_rois rois) ->
  ((a < contained_count mask)%nat ->
     exists k, (k < length rois)%nat /\ nth k mask false = true /\
               nth a cell zero_roi = nth k (cxyw_rois rois) zero_roi) /\
  ((contained_count mask <= a)%nat -> nth a cell zero_roi = zero_roi).
Proof.
  intros g mask cell Hn Hi Hj Ha Hb.
  destruct (top_n_slots_filled_aux tile rois rois_n grid_n n cmp expand i j Hn Hi Hj Hb a Ha)
    as [Hfill Hempty].
  split; [|exact Hempty].
  intro Hc. destruct (Hfill Hc) as (A & B & C).
  eexists. split; [exact A|]. split; [exact B | exact C].
Qed.

Lemma top_n_slots_filled_witness :
  let tile := mkBox 0 0 10 10 in
  let rois := [mkBox 0 0 2 2; mkBox 6 6 8 8; mkBox 1 1 4 4] in
  nth 2 (nth 0 (nth 0 (n_largest_rois_in_cell tile rois 3 2 3 largest_w 1) []) []) zero_roi =
  zero_roi.
Proof.
  intros tile rois.
  refine (proj2 (top_n_slots_filled tile rois 3 2 3 largest_w 1 0 0 2 _ _ _ _ _) _);
    try reflexivity; try lia;
    try (intros r [<- | [<- | [<- | []]]]; vm_compute; reflexivity);
    try (vm_compute; lia).
Defined.

(** X13: under the same condition, the ROI in slot a ranks at least as high
    as every candidate centred in the cell that no earlier round picked:
    each round takes the best of what is left. *)
Theorem top_n_best_first (tile : box) (rois : list box) (rois_n grid_n n : nat)
    (cmp : comparator) (expand : Q) (i j a k : nat) :
  let g := grid_center (cell_origin tile grid_n i j) (tile_cell_w tile grid_n) in
  let mask :=
    nth j (nth i (center_in_grid_cell (fst (gen_grid_for_tile tile grid_n)) grid_n
                                      (snd (gen_grid_for_tile tile grid_n))
                                      (cxyw_rois rois) expand) []) [] in
  let cell :=
    nth j (nth i (n_largest_rois_in_cell tile rois rois_n grid_n n cmp expand) []) [] in
  let trace := selection_trace tile rois rois_n grid_n n cmp expand i j in
  rois_n = length rois -> (i < grid_n)%nat -> (j < grid_n)%nat -> (a < n)%nat ->
  beats_sentinel cmp g (cxyw_rois rois) ->
  (k < length rois)%nat -> nth k mask false = true ->
  (forall b, (b < a)%nat -> fst (nth b trace (O, [])) <> k) ->
  rank cmp g (nth k (cxyw_rois rois) zero_roi) <= rank cmp g (nth a cell zero_roi).
Proof.
  intros g mask cell trace Hn Hi Hj Ha Hb Hk Hin Hfresh.
  exact (proj2 (proj2 (top_n_best_first_aux tile rois rois_n grid_n n cmp expand i j
                         Hn Hi Hj Hb a k Ha Hk Hin Hfresh))).
Qed.

Lemma top_n_best_first_witness :
  let tile := mkBox 0 0 10 10 in
  let rois := [mkBox 0 0 2 2; mkBox 6 6 8 8; mkBox 1 1 4 4] in
  let g := grid_center (cell_origin tile 2 0 0) (tile_cell_w tile 2) in
  rank largest_w g (nth 0 (cxyw_rois rois) zero_roi)
    <= rank largest_w g
            (nth 0 (nth 0 (nth 0 (n_largest_rois_in_cell tile rois 3 2 2 largest_w 1) []) [])
                 zero_roi).
Proof.
  intros tile rois g.
  apply (top_n_best_first tile rois 3 2 2 largest_w 1 0 0 0 0); try reflexivity; try lia;
    try (intros r [<- | [<- | [<- | []]]]; vm_compute; reflexivity);
    try (vm_compute; reflexivity); try (simpl; lia).
Defined.

(** X14: under the same condition, the ranks of the ROIs a cell holds never
    increase from slot to slot, over the slots that hold a candidate. *)
Theorem top_n_ranks_sorted (tile : box) (rois : list box) (rois_n grid_n n : nat)
    (cmp : comparator) (expand : Q) (i j a b : nat) :
  let g := grid_center (cell_origin tile grid_n i j) (tile_cell_w tile grid_n) in
  let mask :=
    nth j (nth i (center_in_grid_cell (fst (gen_grid_for_tile tile grid_n)) grid_n
                                      (snd (gen_grid_for_tile tile grid_n))
                                      (cxyw_rois rois) expand) []) [] in
  let cell :=
    nth j (nth i (n_largest_rois_in_cell tile rois rois_n grid_n n cmp expand) []) [] in
  rois_n = length rois -> (i < grid_n)%nat -> (j < grid_n)%nat ->
  beats_sentinel cmp g (cxyw_rois rois) ->
  (a < b)%nat -> (b < n)%nat -> (b < contained_count mask)%nat ->
  rank cmp g (nth b cell zero_roi) <= rank cmp g (nth a cell zero_roi).
Proof.
  intros g mask cell Hn Hi Hj Hb Hab Hbn Hbc.
  assert (Han : (a < n)%nat) by lia.
  destruct (top_n_slots_filled_aux tile rois rois_n grid_n n cmp expand i j Hn Hi Hj Hb b Hbn)
    as [Hfill _].
  destruct (Hfill Hbc) as (Hk & Hin & Hslot).
  fold cell in Hslot. rewrite Hslot.
  apply (top_n_best_first_aux tile rois rois_n grid_n n cmp expand i j Hn Hi Hj Hb a);
    try assumption.
  intros c Hc E.
  (* the winner of round b is still in the mask of round b, so no earlier
     round picked it *)
  assert (Hcb : (c < b)%nat) by lia.
  set (trace := selection_trace tile rois rois_n grid_n n cmp expand i j) in *.
  assert (Hgone : nth (fst (nth c trace (O, []))) (snd (nth b trace (O, []))) false = false).
  { unfold trace, selection_trace. apply trace_later; assumption. }
  assert (Hn' : rois_n = length (cxyw_rois rois))
    by (unfold cxyw_rois; rewrite length_map; exact Hn).
  assert (Hstill : nth (fst (nth b trace (O, []))) (snd (nth b trace (O, []))) false = true).
  { unfold trace, selection_trace.
    apply (rounds_filled cmp g (cxyw_rois rois) rois_n Hn' Hb n b).
    - rewrite length_map. symmetry. exact Hn'.
    - exact Hbn.
    - unfold mask in Hbc. rewrite selection_mask in Hbc by assumption. exact Hbc. }
  rewrite E in Hgone. congruence.
Qed.

Lemma top_n_ranks_sorted_witness :
  let tile := mkBox 0 0 10 10 in
  let rois := [mkBox 0 0 2 2; mkBox 6 6 8 8; mkBox 1 1 4 4] in
  let g := grid_center (cell_origin tile 2 0 0) (tile_cell_w tile 2) in
  let cell := nth 0 (nth 0 (n_largest_rois_in_cell tile rois 3 2 2 closest_to_center 1) []) [] in
  rank closest_to_center g (nth 1 cell zero_roi) <= rank closest_to_center g (nth 0 cell zero_roi).
Proof.
  intros tile rois g cell.
  apply (top_n_ranks_sorted tile rois 3 2 2 closest_to_center 1 0 0 0 1);
    try reflexivity; try lia;
    try (intros r [<- | [<- | [<- | []]]]; vm_compute; reflexivity);
    try (vm_compute; lia).
Defined.

(** * Further properties of the cell-relative coordinates *)







(** * Further properties of the merger *)

(** the sixteen [tf.where] updates of [roi_select] as a table over which of
    the four ROIs have a positive width *)
Lemma roi_select_table (r1 r2 p1 p2 : croi) :
  roi_select [r1; r2; p1; p2] =
  match Qgtb (rw r1) 0, Qgtb (rw r2) 0, Qgtb (rw p1) 0, Qgtb (rw p2) 0 with
  | true, true, _, _ => [r1; r2]
  | true, false, true, _ => [r1; p1]
  | true, false, false, true => [r1; p2]
  | true, false, false, false => [r1; r1]
  | false, true, true, _ => [r2; p1]
  | false, true, false, true => [r2; p2]
  | false, true, false, false => [r2; r2]
  | false, false, true, true => [p1; p2]
  | false, false, true, false => [p1; p1]
  | false, false, false, true => [p2; p2]
  | false, false, false, false => [r1; r1]
  end.
Proof.
  unfold roi_select. cbn [map].
  destruct (Qgtb (rw r1) 0), (Qgtb (rw r2) 0), (Qgtb (rw p1) 0), (Qgtb (rw p2) 0);
    reflexivity.
Qed.

(** X17: when both normal ROIs are non-empty the periphery is ignored, and a
    non-empty first normal ROI always takes the first slot. *)
Theorem roi_select_normal_first (r1 r2 p1 p2 : croi) :
  0 < rw r1 ->
  nth 0 (roi_select [r1; r2; p1; p2]) zero_roi = r1 /\
  (0 < rw r2 -> roi_select [r1; r2; p1; p2] = [r1; r2]).
Proof.
  intro H1. apply Qgtb_true in H1. rewrite roi_select_table, H1. split.
  - destruct (Qgtb (rw r2) 0), (Qgtb (rw p1) 0), (Qgtb (rw p2) 0); reflexivity.
  - intro H2. apply Qgtb_true in H2. rewrite H2. reflexivity.
Qed.

Lemma roi_select_normal_first_witness :
  roi_select [mkRoi 1 1 3; mkRoi 2 2 4; mkRoi 5 5 6; mkRoi 0 0 0] =
  [mkRoi 1 1 3; mkRoi 2 2 4].
Proof.
  refine (proj2 (roi_select_normal_first (mkRoi 1 1 3) (mkRoi 2 2 4) (mkRoi 5 5 6)
                   (mkRoi 0 0 0) _) _); simpl; lra.
Defined.

Lemma roi_select_In (r1 r2 p1 p2 : croi) :
  length (roi_select [r1; r2; p1; p2]) = 2%nat /\
  forall o, In o (roi_select [r1; r2; p1; p2]) -> In o [r1; r2; p1; p2].
Proof.
  rewrite roi_select_table.
  destruct (Qgtb (rw r1) 0), (Qgtb (rw r2) 0), (Qgtb (rw p1) 0), (Qgtb (rw p2) 0);
    (split; [reflexivity | simpl; tauto]).
Qed.

(** X18: [roi_select] returns two of its four ROIs, never the zero default of
    the first [tf.where]; and as soon as one of the four is non-empty, both
    returned ROIs are non-empty. *)
Theorem roi_select_closed (r1 r2 p1 p2 : croi) :
  let out := roi_select [r1; r2; p1; p2] in
  length out = 2%nat /\
  (forall o, In o out -> In o [r1; r2; p1; p2]) /\
  ((exists c, In c [r1; r2; p1; p2] /\ 0 < rw c) -> forall o, In o out -> 0 < rw o).
Proof.
  intro out. subst out. rewrite roi_select_table.
  destruct (Qgtb (rw r1) 0) eqn:E1, (Qgtb (rw r2) 0) eqn:E2,
           (Qgtb (rw p1) 0) eqn:E3, (Qgtb (rw p2) 0) eqn:E4;
    rewrite ?Qgtb_true, ?Qgtb_false in *;
    (split; [reflexivity|]); (split; [simpl; tauto|]);
    intros (c & Hc & Hpos) o Ho; simpl in Hc, Ho;
    repeat (destruct Hc as [<- | Hc]; [|]); try (exfalso; tauto);
    repeat (destruct Ho as [<- | Ho]; [|]); try (exfalso; tauto);
    try lra.
Qed.

(** X19: when exactly one of the four ROIs is non-empty, it fills both
    output slots. *)
Theorem roi_select_single (r1 r2 p1 p2 : croi) (k : nat) :
  (k < 4)%nat ->
  0 < rw (nth k [r1; r2; p1; p2] zero_roi) ->
  (forall k', (k' < 4)%nat -> k' <> k -> rw (nth k' [r1; r2; p1; p2] zero_roi) <= 0) ->
  roi_select [r1; r2; p1; p2] =
  [nth k [r1; r2; p1; p2] zero_roi; nth k [r1; r2; p1; p2] zero_roi].
Proof.
  intros Hk Hpos Hothers. rewrite roi_select_table.
  assert (H0 : k <> 0%nat -> Qgtb (rw r1) 0 = false)
    by (intro; apply Qgtb_false; apply (Hothers 0%nat); lia).
  assert (H1 : k <> 1%nat -> Qgtb (rw r2) 0 = false)
    by (intro; apply Qgtb_false; apply (Hothers 1%nat); lia).
  assert (H2 : k <> 2%nat -> Qgtb (rw p1) 0 = false)
    by (intro; apply Qgtb_false; apply (Hothers 2%nat); lia).
  assert (H3 : k <> 3%nat -> Qgtb (rw p2) 0 = false)
    by (intro; apply Qgtb_false; apply (Hothers 3%nat); lia).
  destruct k as [|[|[|[|k]]]]; try lia; simpl in Hpos |- *;
    apply Qgtb_true in Hpos; rewrite Hpos;
    rewrite ?H0, ?H1, ?H2, ?H3 by lia; reflexivity.
Qed.

Lemma roi_select_single_witness :
  roi_select [mkRoi 0 0 0; mkRoi 0 0 0; mkRoi 5 6 7; mkRoi 0 0 0] =
  [mkRoi 5 6 7; mkRoi 5 6 7].
Proof.
  apply (roi_select_single (mkRoi 0 0 0) (mkRoi 0 0 0) (mkRoi 5 6 7) (mkRoi 0 0 0) 2);
    [lia | simpl; lra |].
  intros [|[|[|[|k']]]] Hk Hne; try lia; simpl; lra.
Defined.

Lemma exclude_periph_length (normal periph : list croi) :
  length (exclude_periph normal periph) = Nat.min (length normal) (length periph).
Proof. unfold exclude_periph. apply map2_length. Qed.

Lemma exclude_periph_In (normal periph : list croi) (o : croi) :
  In o (exclude_periph normal periph) -> 0 < rw o -> In o periph.
Proof.
  unfold exclude_periph. revert periph.
  induction normal as [|r normal IH]; intros [|p periph] Ho Hpos; simpl in Ho; try tauto.
  destruct Ho as [<- | Ho].
  - left. simpl in Hpos. destruct (Qeq_bool (rw r) (rw p)); [exfalso; lra|].
    destruct p; reflexivity.
  - right. apply IH; assumption.
Qed.

Section Merger.
Variable tile : box.
Variable rois : list box.
Variables rois_n grid_n : nat.
Variables i j : nat.
Hypothesis i_in : (i < grid_n)%nat.
Hypothesis j_in : (j < grid_n)%nat.

Let normal := n_largest_rois_in_cell_relative tile rois rois_n grid_n 2 closest_to_center 1.
Let periph :=
  n_largest_rois_in_cell_relative tile rois rois_n grid_n 2 closest_to_center (13 # 10).

Lemma merger_cells :
  exists r1 r2 p1 p2 p1' p2',
    nth j (nth i normal []) [] = [r1; r2] /\
    nth j (nth i periph []) [] = [p1; p2] /\
    nth j (nth i (rsperiph_rois normal periph) []) [] = [p1'; p2'] /\
    [p1'; p2'] = exclude_periph [r1; r2] [p1; p2] /\
    nth j (nth i (combine_rois normal periph) []) [] = roi_select [r1; r2; p1'; p2'].
Proof.
  assert (Sn : grid_shaped grid_n normal) by apply n_largest_rois_in_cell_relative_shape.
  assert (Sp : grid_shaped grid_n periph) by apply n_largest_rois_in_cell_relative_shape.
  assert (Ln : length (nth j (nth i normal []) []) = 2%nat)
    by (apply n_largest_rois_in_cell_relative_cell_length; assumption).
  assert (Lp : length (nth j (nth i periph []) []) = 2%nat)
    by (apply n_largest_rois_in_cell_relative_cell_length; assumption).
  pose proof (rsperiph_rois_nth grid_n normal periph i j Sn Sp i_in j_in) as Hex.
  pose proof (combine_rois_nth grid_n normal periph i j Sn Sp i_in j_in) as Hco.
  destruct (nth j (nth i normal []) []) as [|r1 [|r2 [|? ?]]]; try discriminate Ln.
  destruct (nth j (nth i periph []) []) as [|p1 [|p2 [|? ?]]]; try discriminate Lp.
  rewrite Hex in Hco. rewrite Hex.
  eexists r1, r2, p1, p2, _, _. repeat split; try reflexivity. exact Hco.
Qed.
End Merger.

(** X20: for n = 2 the merger returns a tensor of grid_n x grid_n cells of
    exactly two ROIs, and every non-empty ROI in it was selected for that
    cell by the normal or by the periphery selection. *)
Theorem n_experimental_roi_selection_strategy_cells (tile : box) (rois : list box)
    (rois_n grid_n : nat) :
  let normal := n_largest_rois_in_cell_relative tile rois rois_n grid_n 2 closest_to_center 1 in
  let periph :=
    n_largest_rois_in_cell_relative tile rois rois_n grid_n 2 closest_to_center (13 # 10) in
  exists combined,
    n_experimental_roi_selection_strategy tile rois rois_n grid_n 2 = Ok combined /\
    length combined = grid_n /\
    forall i, (i < grid_n)%nat ->
      length (nth i combined []) = grid_n /\
      forall j, (j < grid_n)%nat ->
        length (nth j (nth i combined []) []) = 2%nat /\
        forall o, In o (nth j (nth i combined []) []) -> 0 < rw o ->
          In o (nth j (nth i normal []) []) \/ In o (nth j (nth i periph []) []).
Proof.
  intros normal periph. exists (combine_rois normal periph).
  split; [reflexivity|].
  assert (Sn : grid_shaped grid_n normal) by apply n_largest_rois_in_cell_relative_shape.
  assert (Sp : grid_shaped grid_n periph) by apply n_largest_rois_in_cell_relative_shape.
  pose proof (rsperiph_rois_shape grid_n _ _ Sn Sp) as [Ls Rs].
  destruct Sn as [Ln Rn].
  split.
  - unfold combine_rois. rewrite map2_length, Ln, Ls. lia.
  - intros i Hi. split.
    + unfold combine_rois.
      rewrite (nth_map2 _ _ _ i [] []) by (rewrite ?Ln, ?Ls; exact Hi).
      rewrite map2_length, Rn, Rs by exact Hi. lia.
    + intros j Hj.
      destruct (merger_cells tile rois rois_n grid_n i j Hi Hj)
        as (r1 & r2 & p1 & p2 & p1' & p2' & Hn & Hp & _ & Hex & Hco).
      fold normal periph in Hn, Hp, Hco. rewrite Hco, Hn, Hp.
      destruct (roi_select_In r1 r2 p1' p2') as (Hlen & Hin).
      split; [exact Hlen|].
      intros o Ho Hpos. specialize (Hin o Ho). simpl in Hin.
      destruct Hin as [<- | [<- | Hin]]; [left; simpl; tauto | left; simpl; tauto |].
      right. apply (exclude_periph_In [r1; r2] [p1; p2]); [|exact Hpos].
      rewrite <- Hex. simpl. tauto.
Qed.

(** X21: in a cell whose normal selection holds two non-empty ROIs the merger
    returns exactly the normal selection, whatever the periphery holds. *)
Theorem n_experimental_roi_selection_strategy_normal_pair (tile : box) (rois : list box)
    (rois_n grid_n i j : nat) :
  let normal := n_largest_rois_in_cell_relative tile rois rois_n grid_n 2 closest_to_center 1 in
  (i < grid_n)%nat -> (j < grid_n)%nat ->
  0 < rw (nth 0 (nth j (nth i normal []) []) zero_roi) ->
  0 < rw (nth 1 (nth j (nth i normal []) []) zero_roi) ->
  exists combined,
    n_experimental_roi_selection_strategy tile rois rois_n grid_n 2 = Ok combined /\
    nth j (nth i combined []) [] = nth j (nth i normal []) [].
Proof.
  intros normal Hi Hj H0 H1.
  set (periph :=
         n_largest_rois_in_cell_relative tile rois rois_n grid_n 2 closest_to_center (13 # 10)).
  exists (combine_rois normal periph). split; [reflexivity|].
  destruct (merger_cells tile rois rois_n grid_n i j Hi Hj)
    as (r1 & r2 & p1 & p2 & p1' & p2' & Hn & _ & _ & _ & Hco).
  assert (Hn' : nth j (nth i normal []) [] = [r1; r2]) by exact Hn.
  assert (Hco' : nth j (nth i (combine_rois normal periph) []) [] =
                 roi_select [r1; r2; p1'; p2']) by exact Hco.
  rewrite Hn' in H0, H1 |- *. simpl in H0, H1.
  rewrite Hco', roi_select_table.
  apply Qgtb_true in H0. apply Qgtb_true in H1. rewrite H0, H1. reflexivity.
Qed.

Lemma n_experimental_roi_selection_strategy_normal_pair_witness :
  let tile := mkBox 0 0 20 20 in
  let rois := [mkBox 0 0 4 4; mkBox 0 0 2 2; mkBox 18 7 24 13] in
  exists combined,
    n_experimental_roi_selection_strategy tile rois 3 1 2 = Ok combined /\
    nth 0 (nth 0 combined []) [] =
    nth 0 (nth 0 (n_largest_rois_in_cell_relative tile rois 3 1 2 closest_to_center 1) []) [].
Proof.
  intros tile rois.
  apply (n_experimental_roi_selection_strategy_normal_pair tile rois 3 1 0 0);
    try lia; vm_compute; reflexivity.
Defined.

(** * Further properties of the decoding *)

Section Decoding.
Variable rois : list (list (list (list croi))).
Variable grid_n : nat.
Variable tile_size : Q.
Variables b i j k : nat.
Hypothesis b_in : (b < length rois)%nat.
Hypothesis shaped : grid_shaped grid_n (nth b rois []).
Hypothesis i_in : (i < grid_n)%nat.
Hypothesis j_in : (j < grid_n)%nat.
Hypothesis k_in : (k < length (nth j (nth i (nth b rois []) []) []))%nat.

Lemma grid_cell_to_tile_coords_slot :
  nth k (nth j (nth i (nth b (grid_cell_to_tile_coords rois grid_n tile_size) []) []) [])
      (mkCorners 0 0 0 0) =
  to_tile_coords
    (grid_center (Qnat j * (tile_size / Qnat grid_n), Qnat i * (tile_size / Qnat grid_n))
                 (tile_size / Qnat grid_n))
    (tile_size / Qnat grid_n) tile_size
    (nth k (nth j (nth i (nth b rois []) []) []) zero_roi).
Proof.
  rewrite grid_cell_to_tile_coords_nth by assumption.
  apply nth_map_lt. exact k_in.
Qed.

End Decoding.

(** X22: every decoded box is a square of side w * tile_size whose centre
    lies at ((j + 1/2 + x/2) cell_w, (i + 1/2 + y/2) cell_w), with
    cell_w = tile_size / grid_n; so the empty ROI (0, 0, 0) decodes to a box
    of size zero at the centre of its cell, not to a box of zeros. *)
Theorem grid_cell_to_tile_coords_box (rois : list (list (list (list croi))))
    (grid_n : nat) (tile_size : Q) (b i j k : nat) :
  let cell_w := tile_size / Qnat grid_n in
  let r := nth k (nth j (nth i (nth b rois []) []) []) zero_roi in
  let out :=
    nth k (nth j (nth i (nth b (grid_cell_to_tile_coords rois grid_n tile_size) []) []) [])
        (mkCorners 0 0 0 0) in
  (b < length rois)%nat -> grid_shaped grid_n (nth b rois []) ->
  (i < grid_n)%nat -> (j < grid_n)%nat ->
  (k < length (nth j (nth i (nth b rois []) []) []))%nat ->
  (cx2 out - cx1 out == rw r * tile_size /\ cy2 out - cy1 out == rw r * tile_size /\
   (cx1 out + cx2 out) / 2 == (Qnat j + (1 # 2) + rx r / 2) * cell_w /\
   (cy1 out + cy2 out) / 2 == (Qnat i + (1 # 2) + ry r / 2) * cell_w) /\
  (r = zero_roi ->
   cx1 out == (Qnat j + (1 # 2)) * cell_w /\ cx2 out == (Qnat j + (1 # 2)) * cell_w /\
   cy1 out == (Qnat i + (1 # 2)) * cell_w /\ cy2 out == (Qnat i + (1 # 2)) * cell_w).
Proof.
  intros cell_w r out Hb Hs Hi Hj Hk. subst out.
  rewrite grid_cell_to_tile_coords_slot by assumption. fold r. fold cell_w.
  unfold to_tile_coords, grid_center; simpl. split.
  - repeat split; field.
  - intro Hz. rewrite Hz. simpl. repeat split; field.
Qed.

Lemma grid_cell_to_tile_coords_box_witness :
  let out :=
    nth 0 (nth 1 (nth 0 (nth 0 (grid_cell_to_tile_coords
                                  [[[[zero_roi]; [zero_roi]]; [[zero_roi]; [zero_roi]]]] 2 12)
                               []) []) []) (mkCorners 0 0 0 0) in
  cx1 out == (Qnat 1 + (1 # 2)) * (12 / Qnat 2) /\ cx2 out == (Qnat 1 + (1 # 2)) * (12 / Qnat 2) /\
  cy1 out == (Qnat 0 + (1 # 2)) * (12 / Qnat 2) /\ cy2 out == (Qnat 0 + (1 # 2)) * (12 / Qnat 2).
Proof.
  assert (Hs : grid_shaped 2 (nth 0 [[[[zero_roi]; [zero_roi]]; [[zero_roi]; [zero_roi]]]] [])).
  { split; [reflexivity|]. intros i Hi.
    destruct i as [|[|i]]; [reflexivity | reflexivity | lia]. }
  refine (proj2 (grid_cell_to_tile_coords_box
                   [[[[zero_roi]; [zero_roi]]; [[zero_roi]; [zero_roi]]]] 2 12 0 0 1 0
                   _ Hs _ _ _) _); simpl; try lia. reflexivity.
Defined.







(** * Further properties of the grid and of the selection as a whole *)



(** X26: the y2 coordinate of the tile is never read: the grid, the selection
    and the normalised selection depend on x1, y1 and x2 only (cells are
    squares of side (x2 - x1) / grid_n). *)
Theorem tile_y2_ignored (tile tile' : box) (rois : list box) (rois_n grid_n n : nat)
    (cmp : comparator) (expand : Q) :
  bx1 tile' = bx1 tile -> by1 tile' = by1 tile -> bx2 tile' = bx2 tile ->
  gen_grid_for_tile tile' grid_n = gen_grid_for_tile tile grid_n /\
  n_largest_rois_in_cell tile' rois rois_n grid_n n cmp expand =
    n_largest_rois_in_cell tile rois rois_n grid_n n cmp expand /\
  n_largest_rois_in_cell_relative tile' rois rois_n grid_n n cmp expand =
    n_largest_rois_in_cell_relative tile rois rois_n grid_n n cmp expand.
Proof.
  intros Hx1 Hy1 Hx2.
  assert (Hgrid : gen_grid_for_tile tile' grid_n = gen_grid_for_tile tile grid_n)
    by (unfold gen_grid_for_tile; rewrite Hx1, Hy1, Hx2; reflexivity).
  assert (Hsel : n_largest_rois_in_cell tile' rois rois_n grid_n n cmp expand =
                 n_largest_rois_in_cell tile rois rois_n grid_n n cmp expand)
    by (unfold n_largest_rois_in_cell; rewrite Hgrid; reflexivity).
  split; [exact Hgrid|]. split; [exact Hsel|].
  unfold n_largest_rois_in_cell_relative, make_rois_tile_cell_relative.
  rewrite Hgrid, Hsel. reflexivity.
Qed.

Lemma tile_y2_ignored_witness :
  n_largest_rois_in_cell (mkBox 0 0 10 400) [mkBox 0 0 2 2; mkBox 6 6 8 8] 2 2 2 largest_w 1 =
  n_largest_rois_in_cell (mkBox 0 0 10 10) [mkBox 0 0 2 2; mkBox 6 6 8 8] 2 2 2 largest_w 1.
Proof.
  refine (proj1 (proj2 (tile_y2_ignored (mkBox 0 0 10 10) (mkBox 0 0 10 400)
                          [mkBox 0 0 2 2; mkBox 6 6 8 8] 2 2 2 largest_w 1 _ _ _)));
    reflexivity.
Defined.

Lemma cell_trace_prefix (cmp : comparator) (g : Q * Q) (rois : list croi)
    (rois_n n m : nat) (hc : list bool) :
  cell_trace cmp g rois rois_n n hc = firstn n (cell_trace cmp g rois rois_n (n + m) hc).
Proof.
  revert hc. induction n as [|n IH]; intro hc; simpl; [reflexivity|].
  f_equal. apply IH.
Qed.

(** X27: asking for more slots per cell does not change the earlier slots:
    the selection with n slots is, cell by cell, the first n slots of the
    selection with n + m slots. *)
Theorem n_largest_rois_in_cell_prefix (tile : box) (rois : list box)
    (rois_n grid_n n m : nat) (cmp : comparator) (expand : Q) (i j : nat) :
  (i < grid_n)%nat -> (j < grid_n)%nat ->
  nth j (nth i (n_largest_rois_in_cell tile rois rois_n grid_n n cmp expand) []) [] =
  firstn n (nth j (nth i (n_largest_rois_in_cell tile rois rois_n grid_n (n + m) cmp expand)
                        []) []).
Proof.
  intros Hi Hj. rewrite !n_largest_rois_in_cell_nth by assumption.
  unfold cell_rounds. rewrite (cell_trace_prefix _ _ _ _ n m).
  symmetry. apply firstn_map.
Qed.

Lemma n_largest_rois_in_cell_prefix_witness :
  let tile := mkBox 0 0 10 10 in
  let rois := [mkBox 0 0 2 2; mkBox 6 6 8 8; mkBox 1 1 4 4] in
  nth 0 (nth 0 (n_largest_rois_in_cell tile rois 3 2 1 largest_w 1) []) [] =
  firstn 1 (nth 0 (nth 0 (n_largest_rois_in_cell tile rois 3 2 (1 + 2) largest_w 1) []) []).
Proof.
  intros tile rois.
  apply (n_largest_rois_in_cell_prefix tile rois 3 2 1 2 largest_w 1 0 0); lia.
Defined.


